(** * goldfish: the request dispatcher of [request/request.go]

    A shallow embedding of package [request]: the dispatcher [Add], [Get],
    [Approve], [Reject], the root-token reconstruction [generateRootToken]
    and the share bundle of [appendUnseal].

    The Go code talks to three collaborators that are not part of the file:
    package [vault] (the secret store adapter), the concrete request variant
    [PolicyRequest] (policy.go) and a handful of reflection helpers
    ([structs.Map], [mapstructure.Decode], [hashstructure.Hash]).  They are
    interfaces here (type classes); the development is parametric in them
    and is run on a small in-memory vault for the examples.  The functions
    of Go's library that the package calls are written out; of the data
    behind them, the Unicode case table of [strings.ToLower] is a parameter
    as well. *)

From Stdlib Require Import ZArith NArith Ascii String List Lia DecimalString.
From stdpp Require Import base tactics decidable option list strings gmap.

Local Open Scope string_scope.
Local Open Scope list_scope.
Local Open Scope N_scope.

(** ** Go values *)

(** [error]: only the message is observable in this package
    ([errors.New], [err.Error()]).  A nil error is [None]. *)
Definition error := string.
Definition errors_New (msg : string) : error := msg.
Definition Error (e : error) : string := e.

(** [interface{}] as stored in a cubbyhole record: the dynamic types that
    the package distinguishes are "string" and "anything else". *)
Inductive value :=
  | VString (s : string)
  | VInt (n : Z)
  | VBool (b : bool)
  | VNil.

#[global] Instance value_eq_dec : EqDecision value.
Proof. solve_decision. Defined.

(** [map[string]interface{}]; a nil map reads like the empty one. *)
Abbreviation Data := (gmap string value).

(** [v, ok := m[k]; if ok { s, ok = v.(string) }]: the string under [k],
    or the zero string when the key is absent or holds another type. *)
Definition string_field (m : Data) (k : string) : string :=
  match m !! k with
  | Some (VString s) => s
  | _ => ""
  end.

(** ** UTF-8 and runes *)

(** [utf8.RuneError]. *)
Definition RuneError : N := 65533.

(** The tables [first] and [acceptRanges] of package [utf8]: for a leading
    byte of a multi-byte sequence, the length of the sequence and the range
    its second byte must lie in. *)
Definition utf8_first (b0 : N) : option (nat * (N * N)) :=
  if b0 <? 194 then None
  else if b0 <? 224 then Some (2%nat, (128, 191))
  else if b0 =? 224 then Some (3%nat, (160, 191))
  else if b0 <? 237 then Some (3%nat, (128, 191))
  else if b0 =? 237 then Some (3%nat, (128, 159))
  else if b0 <? 240 then Some (3%nat, (128, 191))
  else if b0 =? 240 then Some (4%nat, (144, 191))
  else if b0 <? 244 then Some (4%nat, (128, 191))
  else if b0 =? 244 then Some (4%nat, (128, 143))
  else None.

(** A continuation byte, [locb <= b <= hicb]. *)
Definition outside (lo hi b : N) : bool := (b <? lo) || (hi <? b).

(** [utf8.DecodeRuneInString]: the first rune of [s] and its width in
    bytes; [(RuneError, 1)] for an encoding that is not valid. *)
Definition utf8_DecodeRuneInString (s : string) : N * nat :=
  match s with
  | EmptyString => (RuneError, 0%nat)
  | String c0 t0 =>
      let s0 := N_of_ascii c0 in
      if s0 <? 128 then (s0, 1%nat) else
      match utf8_first s0 with
      | None => (RuneError, 1%nat)
      | Some (sz, (lo, hi)) =>
          if (String.length s <? sz)%nat then (RuneError, 1%nat) else
          match t0 with
          | EmptyString => (RuneError, 1%nat)
          | String c1 t1 =>
              let s1 := N_of_ascii c1 in
              if outside lo hi s1 then (RuneError, 1%nat) else
              if (sz <=? 2)%nat then ((s0 mod 32) * 64 + s1 mod 64, 2%nat) else
              match t1 with
              | EmptyString => (RuneError, 1%nat)
              | String c2 t2 =>
                  let s2 := N_of_ascii c2 in
                  if outside 128 191 s2 then (RuneError, 1%nat) else
                  if (sz <=? 3)%nat
                  then ((s0 mod 16) * 4096 + (s1 mod 64) * 64 + s2 mod 64, 3%nat) else
                  match t2 with
                  | EmptyString => (RuneError, 1%nat)
                  | String c3 _ =>
                      let s3 := N_of_ascii c3 in
                      if outside 128 191 s3 then (RuneError, 1%nat) else
                      ((s0 mod 8) * 262144 + (s1 mod 64) * 4096
                       + (s2 mod 64) * 64 + s3 mod 64, 4%nat)
                  end
              end
          end
      end
  end.

(** [unicode.IsSpace]: the Latin-1 cases, then the table [White_Space]. *)
Definition unicode_IsSpace (r : N) : bool :=
  if r <=? 255
  then (9 <=? r) && (r <=? 13) || (r =? 32) || (r =? 133) || (r =? 160)
  else (r =? 5760) || (8192 <=? r) && (r <=? 8202) || (r =? 8232) || (r =? 8233)
       || (r =? 8239) || (r =? 8287) || (r =? 12288).

(** [s[:n]] and [s[n:]]. *)
Fixpoint string_take (n : nat) (s : string) : string :=
  match n, s with
  | S n', String c s' => String c (string_take n' s')
  | _, _ => EmptyString
  end.
Fixpoint string_drop (n : nat) (s : string) : string :=
  match n, s with
  | S n', String _ s' => string_drop n' s'
  | _, _ => s
  end.

(** [for end, rune := range s]: the runes of [s] in order, each with the
    bytes it was decoded from. *)
Fixpoint runes_upto (fuel : nat) (s : string) : list (N * string) :=
  match fuel with
  | O => []
  | S fuel' =>
      match s with
      | EmptyString => []
      | _ =>
          let '(r, w) := utf8_DecodeRuneInString s in
          (r, string_take w s) :: runes_upto fuel' (string_drop w s)
      end
  end.
Definition runes (s : string) : list (N * string) := runes_upto (String.length s) s.

(** [utf8.AppendRune]: the encoding of a rune in one to four bytes; that
    of [RuneError] for a surrogate half and for a value above
    [unicode.MaxRune]. *)
Definition utf8_AppendRune (r : N) : string :=
  let b (n : N) := ascii_of_N n in
  if r <=? 127 then String (b r) ""
  else if r <=? 2047 then String (b (192 + r / 64)) (String (b (128 + r mod 64)) "")
  else
    let r := if (1114111 <? r) || (55296 <=? r) && (r <=? 57343) then RuneError else r in
    if r <=? 65535
    then String (b (224 + r / 4096))
           (String (b (128 + r / 64 mod 64)) (String (b (128 + r mod 64)) ""))
    else String (b (240 + r / 262144))
           (String (b (128 + r / 4096 mod 64))
              (String (b (128 + r / 64 mod 64)) (String (b (128 + r mod 64)) ""))).

(** ** The strings, unicode and strconv functions the package calls *)

(** The table [unicode.CaseRanges] behind [unicode.To(unicode.LowerCase, r)].
    It is data of Go's library and grows with the Unicode version, so the
    development takes the lookup as it is: every statement holds for
    whatever the table says.  [unicode.ToLower] consults it for the runes
    above ASCII only. *)
Class CaseTable := {
  unicode_To_LowerCase : N → N
}.

(** [unicode.ToLower]: [if r <= MaxASCII { if 'A' <= r && r <= 'Z' { r +=
    'a' - 'A' }; return r }; return To(LowerCase, r)]. *)
Definition unicode_ToLower {CT : CaseTable} (r : N) : N :=
  if r <=? 127 then (if (65 <=? r) && (r <=? 90) then r + 32 else r)
  else unicode_To_LowerCase r.

(** [strings.Map(mapping, s)] for a mapping that drops no rune: the
    encodings of the mapped runes of [s].  A byte of [s] that is no valid
    UTF-8 reads as [RuneError] and is mapped like it. *)
Definition strings_Map (mapping : N → N) (s : string) : string :=
  foldr (λ u acc, utf8_AppendRune (mapping (fst u)) +:+ acc) "" (runes s).

(** The ASCII path of [strings.ToLower]: [c += 'a' - 'A'] for the bytes
    from 'A' to 'Z'. *)
Definition lower_ascii (c : ascii) : ascii :=
  let n := N_of_ascii c in
  if (65 <=? n) && (n <=? 90) then ascii_of_N (n + 32) else c.

Fixpoint lower_bytes (s : string) : string :=
  match s with
  | EmptyString => EmptyString
  | String c s' => String (lower_ascii c) (lower_bytes s')
  end.

(** [isASCII] and [hasUpper] of [strings.ToLower]. *)
Definition is_ascii (s : string) : bool :=
  forallb (λ c, N_of_ascii c <? 128) (list_ascii_of_string s).
Definition has_upper (s : string) : bool :=
  existsb (λ c, (65 <=? N_of_ascii c) && (N_of_ascii c <=? 90)) (list_ascii_of_string s).

(** [strings.ToLower]: a string of ASCII bytes is returned as it is when
    it has no capital and lowered byte by byte when it has; any other
    string goes through [strings.Map(unicode.ToLower, s)]. *)
Definition strings_ToLower {CT : CaseTable} (s : string) : string :=
  if is_ascii s then (if has_upper s then lower_bytes s else s)
  else strings_Map unicode_ToLower s.

(** The two tests on the "Type" field that lead to the policy variant:
    [t != ""] and [case "policy"] of [switch strings.ToLower(t)]. *)
Definition selects_policy {CT : CaseTable} (m : Data) : Prop :=
  string_field m "Type" ≠ "" ∧ strings_ToLower (string_field m "Type") = "policy".

(** One lower-case hexadecimal digit. *)
Definition hex_digit (d : N) : ascii :=
  if d <? 10 then ascii_of_N (48 + d) else ascii_of_N (87 + d).

(** [strconv.FormatUint(n, 16)]: most significant digit first, no leading
    zeros, "0" for zero. *)
Fixpoint hex_digits (fuel : nat) (n : N) (acc : string) : string :=
  match fuel with
  | O => acc
  | S fuel' =>
      let acc' := String (hex_digit (n mod 16)) acc in
      if n / 16 =? 0 then acc' else hex_digits fuel' (n / 16) acc'
  end.

Definition strconv_FormatUint16 (n : N) : string :=
  hex_digits (S (N.to_nat (N.log2 n))) n "".

(** ** The process state *)

(** Calls that cross the boundary to package [vault], in program order. *)
Inductive VaultCall :=
  | CallRead (path : string)
  | CallWrite (path : string) (data : Data)
  | CallWrap (ttl : string) (data : Data)
  | CallRootInit (otp : string)
  | CallRootUpdate (share nonce : string)
  | CallRootCancel.

(** [*api.GenerateRootStatusResponse], the two fields that are read. *)
Record RootStatus := mkRootStatus {
  Nonce : string;
  EncodedRootToken : string
}.

(** The world an operation runs in: the package variables [lockMap] (a
    [syncmap.Map] whose values are always [true], hence a set of keys) and
    [lockRoot] (held or not), the state [V] of everything behind package
    [vault], and the log of the calls made to it. *)
Record World (V : Type) := mkWorld {
  lockMap : gset string;
  lockRoot : bool;
  backend : V;
  calls : list VaultCall
}.
Arguments mkWorld {V} _ _ _ _.
Arguments lockMap {V} _.
Arguments lockRoot {V} _.
Arguments backend {V} _.
Arguments calls {V} _.

Definition set_lockMap {V} (f : gset string → gset string) (w : World V) : World V :=
  mkWorld (f (lockMap w)) (lockRoot w) (backend w) (calls w).
Definition set_lockRoot {V} (b : bool) (w : World V) : World V :=
  mkWorld (lockMap w) b (backend w) (calls w).

(** A Go function body: it runs in a world and leaves a world. *)
Definition M (V A : Type) : Type := World V → A * World V.

Definition ret {V A} (a : A) : M V A := λ w, (a, w).
Definition bind {V A B} (m : M V A) (k : A → M V B) : M V B :=
  λ w, let '(a, w') := m w in k a w'.

Declare Scope go_scope.
Delimit Scope go_scope with go.
Notation "x <- m ;; k" := (bind m (λ x, k))
  (at level 100, m at next level, right associativity) : go_scope.
Open Scope go_scope.

(** [defer d] at the head of [body]: [d] runs when the body returns, on
    whichever path, and the returned values are those of the body. *)
Definition defer {V A} (d : M V unit) (body : M V A) : M V A :=
  r <- body ;; _ <- d ;; ret r.

(** [_, loaded := lockMap.LoadOrStore(k, true)]. *)
Definition lockMap_LoadOrStore {V} (k : string) : M V bool :=
  λ w, if bool_decide (k ∈ lockMap w) then (true, w)
       else (false, set_lockMap (λ s, {[k]} ∪ s) w).

(** [lockMap.Delete(k)]. *)
Definition lockMap_Delete {V} (k : string) : M V unit :=
  λ w, (tt, set_lockMap (λ s, s ∖ {[k]}) w).

(** The world once [k] is claimed, and once it is given back. *)
Definition claimed {V} (k : string) (w : World V) : World V :=
  set_lockMap (λ s, {[k]} ∪ s) w.
Definition released {V} (k : string) (w : World V) : World V :=
  set_lockMap (λ s, s ∖ {[k]}) w.

(** ** Collaborators *)

(** Package [vault] on the backend state [V].  A function that returns
    [(x, err)] in Go returns the pair here; [x] is meaningless when [err]
    is not nil, as the callers never look at it then. *)
Class Vault (V : Type) := {
  vault_ReadFromCubbyhole : string → V → (option Data * option error) * V;
  vault_WriteToCubbyhole : string → Data → V → option error * V;
  vault_WrapData : string → Data → V → (string * option error) * V;
  vault_GenerateRootInit : string → V → (RootStatus * option error) * V;
  vault_GenerateRootUpdate : string → string → V → (RootStatus * option error) * V;
  vault_GenerateRootCancel : V → option error * V;
  (** [securecookie.GenerateRandomKey]: the bytes come from the system's
      entropy source, which is part of the environment. *)
  securecookie_GenerateRandomKey : nat → V → list Byte.byte * V
}.

(** The interface [Request] for a variant with state [R], callers
    identified by [A].  [Create] is called on a zero-valued receiver and
    fills it in: it returns the receiver it leaves.  The other methods are
    taken to leave their receiver as it is; what they do to the vault, or
    to the package variables, shows in the world. *)
Module Req.
Class Request (V A R : Type) := {
  IsRootOnly : R → bool;
  Verify : R → A → M V (option error);
  Approve : R → string → string → M V (option error);
  Reject : R → A → string → M V (option error);
  Create : A → Data → M V (R * (string * option error))
}.
End Req.

(** Modelled from the spec: what section 4.4 asks of a variant's [Reject],
    whose source (policy.go) is not in this file.  On a request that fails
    the validity check, [Reject] fails with the error of the check and goes
    no further than the check did. *)
Definition Reject_revalidates {V A R : Type} {RQ : Req.Request V A R} : Prop :=
  ∀ (req : R) (auth : A) (hash : string) (w : World V) (e : error) (w2 : World V),
    Req.Verify req auth w = (Some e, w2) →
    Req.Reject req auth hash w = (Some e, w2).

(** The reflection helpers at the variant's struct type. *)
Class StructOps (R : Type) := {
  structs_Map : R → Data;
  mapstructure_Decode : Data → R + error;
  hashstructure_Hash : R → N * option error
}.

(** ** The dispatcher *)

Section Dispatcher.
Context {CT : CaseTable} {V A R : Type} {VV : Vault V} {RQ : Req.Request V A R} {SO : StructOps R}.

Abbreviation M := (M V).

(** A call into package [vault]: it is logged, then it acts on the backend. *)
Definition call {X} (c : VaultCall) (f : V → X * V) : M X :=
  λ w, let '(x, v) := f (backend w) in
       (x, mkWorld (lockMap w) (lockRoot w) v (calls w ++ [c])).

Definition ReadFromCubbyhole (path : string) : M (option Data * option error) :=
  call (CallRead path) (vault_ReadFromCubbyhole path).
Definition WriteToCubbyhole (path : string) (data : Data) : M (option error) :=
  call (CallWrite path data) (vault_WriteToCubbyhole path data).

(** The world after the read of [load]: one more call in the log, the
    backend as the read left it. *)
Definition after_read (path : string) (w : World V) : World V :=
  mkWorld (lockMap w) (lockRoot w)
    (snd (vault_ReadFromCubbyhole path (backend w))) (calls w ++ [CallRead path]).

Definition errConflict : error :=
  errors_New "Someone else is currently editing this request".
Definition errNotFound : error := errors_New "Change ID not found".
Definition errHashes : error := errors_New "Hashes do not match".

(** [strconv.FormatUint(hash_uint64, 16)] of [hashstructure.Hash(req, nil)],
    when the latter does not fail. *)
Definition fingerprint (req : R) : option string :=
  match hashstructure_Hash req with
  | (h, None) => Some (strconv_FormatUint16 h)
  | (_, Some _) => None
  end.

(** [err != nil || strconv.FormatUint(hash_uint64, 16) != hash] *)
Definition hash_mismatch (req : R) (hash : string) : bool :=
  let '(h, err) := hashstructure_Hash req in
  bool_decide (err ≠ None) || bool_decide (strconv_FormatUint16 h ≠ hash).

(** A stored request that loads: the record is there, selects the policy
    variant, decodes to [req], and the fingerprint of [req] is the key. *)
Definition stored (hash : string) (w : World V) (data : Data) (req : R) : Prop :=
  fst (vault_ReadFromCubbyhole ("requests/" +:+ hash) (backend w)) = (Some data, None)
  ∧ selects_policy data
  ∧ mapstructure_Decode data = inl req
  ∧ fingerprint req = Some hash.

Definition Add (auth : A) (raw : Data) : M (string * option error) :=
  let t := string_field raw "Type" in
  if decide (t = "") then ret ("", Some (errors_New "Type field is empty")) else
  if decide (strings_ToLower t = "policy") then
    created <- Req.Create auth raw ;;
    let '(req, (hash, err)) := created in
    match err with
    | Some e => ret ("", Some e)
    | None =>
        loaded <- lockMap_LoadOrStore hash ;;
        if loaded : bool then ret ("", Some errConflict) else
        defer (lockMap_Delete hash)
          (err <- WriteToCubbyhole ("requests/" +:+ hash) (structs_Map req) ;;
           ret (hash, err))
    end
  else ret ("", Some (errors_New "Unsupported request type")).

(** The part that [Get], [Approve] and [Reject] share word for word: read
    the record, find its type, decode it and check its hash.  It yields
    the decoded request or the error to return. *)
Definition load (hash : string) : M (R + error) :=
  read <- ReadFromCubbyhole ("requests/" +:+ hash) ;;
  let '(resp, err) := read in
  match err with
  | Some e => ret (inr e)
  | None =>
  match resp with
  | None => ret (inr errNotFound)
  | Some data =>
      let t := string_field data "Type" in
      if decide (t = "") then ret (inr (errors_New "Invalid request type")) else
      if decide (strings_ToLower t = "policy") then
        match mapstructure_Decode data with
        | inr e => ret (inr e)
        | inl req =>
            if hash_mismatch req hash then ret (inr errHashes)
            else ret (inl req)
        end
      else ret (inr (errors_New ("Invalid request type: " +:+ t)))
  end
  end.

Definition Get (auth : A) (hash : string) : M (option R * option error) :=
  loaded <- lockMap_LoadOrStore hash ;;
  if loaded : bool then ret (None, Some errConflict) else
  defer (lockMap_Delete hash)
    (r <- load hash ;;
     match r with
     | inr e => ret (None, Some e)
     | inl req =>
         err <- Req.Verify req auth ;;
         match err with
         | Some e => ret (None, Some e)
         | None => ret (Some req, None)
         end
     end).

Definition Approve (auth : A) (hash unseal : string) : M (option error) :=
  loaded <- lockMap_LoadOrStore hash ;;
  if loaded : bool then ret (Some errConflict) else
  defer (lockMap_Delete hash)
    (r <- load hash ;;
     match r with
     | inr e => ret (Some e)
     | inl req =>
         err <- Req.Verify req auth ;;
         match err with
         | Some e => ret (Some e)
         | None => Req.Approve req hash unseal
         end
     end).

Definition Reject (auth : A) (hash : string) : M (option error) :=
  loaded <- lockMap_LoadOrStore hash ;;
  if loaded : bool then ret (Some errConflict) else
  defer (lockMap_Delete hash)
    (r <- load hash ;;
     match r with
     | inr e => ret (Some e)
     | inl req => Req.Reject req auth hash
     end).

Definition IsRootOnly (req : R) : bool := Req.IsRootOnly req.

End Dispatcher.

(** ** Root-token reconstruction *)

(** [encoding/base64], [StdEncoding]. *)
Class Base64 := {
  base64_EncodeToString : list Byte.byte → string;
  base64_DecodeString : string → list Byte.byte + error
}.

(** [a ^ b] on bytes. *)
Definition byte_xor (a b : Byte.byte) : Byte.byte :=
  default Byte.x00 (Byte.of_N (N.lxor (Byte.to_N a) (Byte.to_N b))).

(** The loop of [xor.XORBytes]: [buf[i] = a[i] ^ b[i]]. *)
Fixpoint xor_loop (a b : list Byte.byte) : list Byte.byte :=
  match a, b with
  | x :: a', y :: b' => byte_xor x y :: xor_loop a' b'
  | _, _ => []
  end.

(** [%d] of a length. *)
Definition fmt_d (n : nat) : string := NilZero.string_of_uint (Nat.to_uint n).

(** [xor.XORBytes] (vault/helper/xor). *)
Definition xor_XORBytes (a b : list Byte.byte) : list Byte.byte + error :=
  if decide (length a ≠ length b)
  then inr ("length of byte slices is not equivalent: "
            +:+ fmt_d (length a) +:+ " != " +:+ fmt_d (length b))
  else inl (xor_loop a b).

(** [xor.XORBase64]: both arguments are decoded, an empty decoding is
    refused, and the decodings are combined by [XORBytes]. *)
Definition xor_XORBase64 {B64 : Base64} (a b : string) : list Byte.byte + error :=
  match base64_DecodeString a with
  | inr e => inr ("error decoding first base64 value: " +:+ Error e)
  | inl aBytes =>
      if decide (aBytes = []) then inr "decoded first base64 value is nil or empty" else
      match base64_DecodeString b with
      | inr e => inr ("error decoding second base64 value: " +:+ Error e)
      | inl bBytes =>
          if decide (bBytes = []) then inr "decoded second base64 value is nil or empty"
          else xor_XORBytes aBytes bBytes
      end
  end.

(** [%x] of a byte slice: two lower-case digits a byte. *)
Fixpoint fmt_x (buf : list Byte.byte) : string :=
  match buf with
  | [] => ""
  | b :: buf' =>
      let n := Byte.to_N b in
      String (hex_digit (n / 16)) (String (hex_digit (n mod 16)) (fmt_x buf'))
  end.

(** [buf[i:j]] for [i <= j <= len(buf)]. *)
Definition slice {X} (buf : list X) (i j : nat) : list X := take (j - i) (drop i buf).

(** [fmt.Sprintf("%x-%x-%x-%x-%x", buf[0:4], buf[4:6], buf[6:8], buf[8:10],
    buf[10:16])]. *)
Definition uuid_text (buf : list Byte.byte) : string :=
  fmt_x (slice buf 0 4) +:+ "-" +:+ fmt_x (slice buf 4 6) +:+ "-" +:+
  fmt_x (slice buf 6 8) +:+ "-" +:+ fmt_x (slice buf 8 10) +:+ "-" +:+
  fmt_x (slice buf 10 16).

(** [uuid.FormatUUID] (hashicorp/go-uuid): sixteen bytes as 8-4-4-4-12. *)
Definition uuid_FormatUUID (buf : list Byte.byte) : string + error :=
  if decide (length buf ≠ 16%nat)
  then inr ("wrong length byte slice (" +:+ fmt_d (length buf) +:+ ")")
  else inl (uuid_text buf).

Section RootToken.
Context {V : Type} {VV : Vault V} {B64 : Base64}.

Abbreviation M := (M V).

(** A step that reads the environment without calling package [vault]. *)
Definition env {X} (f : V → X * V) : M X :=
  λ w, let '(x, v) := f (backend w) in
       (x, mkWorld (lockMap w) (lockRoot w) v (calls w)).

Definition GenerateRootInit (otp : string) : M (RootStatus * option error) :=
  call (CallRootInit otp) (vault_GenerateRootInit otp).
Definition GenerateRootUpdate (share nonce : string) : M (RootStatus * option error) :=
  call (CallRootUpdate share nonce) (vault_GenerateRootUpdate share nonce).
Definition GenerateRootCancel : M (option error) :=
  call CallRootCancel vault_GenerateRootCancel.

Definition errQuorum : error :=
  errors_New "Could not generate root token. Was vault re-keyed just now?".
Definition errDecode : error :=
  errors_New "Could not decode root token. Please search and revoke".

(** The message built in [if err != nil { ... }] in the loop: that of the
    failed update, and behind it that of a failed cancel. *)
Definition abortMessage (err : error) (cancelErr : option error) : string :=
  let errS := "Could not generate root token: " +:+ Error err in
  match cancelErr with
  | Some e => errS +:+ ". Attempted to cancel root generation, but: " +:+ Error e
  | None => errS
  end.

Definition abortRootGeneration (err : error) : M error :=
  cerr <- GenerateRootCancel ;;
  ret (errors_New (abortMessage err cerr)).

(** [for _, s := range unsealKeys { ... }]: the status after the last
    share, or the error the function returns from inside the loop. *)
Fixpoint submitShares (unsealKeys : list string) (status : RootStatus) : M (RootStatus + error) :=
  match unsealKeys with
  | [] => ret (inl status)
  | s :: rest =>
      upd <- GenerateRootUpdate s (Nonce status) ;;
      let '(status', err) := upd in
      match err with
      | Some e => errS <- abortRootGeneration e ;; ret (inr errS)
      | None => submitShares rest status'
      end
  end.

(** [if status.EncodedRootToken == "" { for ... }]: the shares are only
    submitted when the backend did not complete the generation at once. *)
Definition collectShares (unsealKeys : list string) (status : RootStatus) : M (RootStatus + error) :=
  if decide (EncodedRootToken status = "")
  then submitShares unsealKeys status
  else ret (inl status).

(** From the completion check to the end of [generateRootToken]. *)
Definition decodeRootToken (status : RootStatus) (otp : string) : string * option error :=
  if decide (EncodedRootToken status = "") then ("", Some errQuorum) else
  match xor_XORBase64 (EncodedRootToken status) otp with
  | inr _ => ("", Some errDecode)
  | inl tokenBytes =>
      match uuid_FormatUUID tokenBytes with
      | inr _ => ("", Some errDecode)
      | inl token => (token, None)
      end
  end.

(** The world in which the shares are submitted: the mutex held, the pad
    drawn, the generation initiated. *)
Definition initiated (w : World V) (otp : string) (v : V) : World V :=
  mkWorld (lockMap w) true v (calls w ++ [CallRootInit otp]).

(** The function between [lockRoot.Lock()] and the deferred [Unlock]. *)
Definition generateRootToken_locked (unsealKeys : list string) : M (string * option error) :=
  key <- env (securecookie_GenerateRandomKey 16) ;;
  let otp := base64_EncodeToString key in
  init <- GenerateRootInit otp ;;
  let '(status, err) := init in
  match err with
  | Some e => ret ("", Some e)
  | None =>
      r <- collectShares unsealKeys status ;;
      match r with
      | inr e => ret ("", Some e)
      | inl status => ret (decodeRootToken status otp)
      end
  end.

(** [generateRootToken].  [lockRoot.Lock()] does not return while the mutex
    is held: there is no result then.  Otherwise the mutex is taken and the
    deferred [Unlock] gives it back on return. *)
Definition generateRootToken (unsealKeys : list string)
    (w : World V) : option ((string * option error) * World V) :=
  if lockRoot w then None
  else Some (defer (λ w', (tt, set_lockRoot false w'))
               (generateRootToken_locked unsealKeys) (set_lockRoot true w)).

End RootToken.

(** ** The share bundle *)

(** The loop of [strings.FieldsFunc]: [cur] is the span that is open
    ([start >= 0]), if any; a rune for which [f] holds closes it. *)
Fixpoint fields_loop (f : N → bool) (rs : list (N * string)) (cur : option string) : list string :=
  match rs with
  | [] => match cur with Some span => [span] | None => [] end
  | (r, bytes) :: rs' =>
      if f r
      then match cur with
           | Some span => span :: fields_loop f rs' None
           | None => fields_loop f rs' None
           end
      else fields_loop f rs' (Some (default "" cur +:+ bytes))
  end.

Definition strings_FieldsFunc (s : string) (f : N → bool) : list string :=
  fields_loop f (runes s) None.

(** [strings.Fields]; its fast path for ASCII input computes the same. *)
Definition strings_Fields (s : string) : list string :=
  strings_FieldsFunc s unicode_IsSpace.

(** [strings.Join]. *)
Fixpoint strings_Join (elems : list string) (sep : string) : string :=
  match elems with
  | [] => ""
  | [e] => e
  | e :: elems' => e +:+ sep +:+ strings_Join elems' sep
  end.

(** [fmt.Sprint] of a [[]string]: the elements between brackets, a space
    apart. *)
Definition fmt_Sprint (a : list string) : string :=
  "[" +:+ strings_Join a " " +:+ "]".

Definition in_cutset (cutset : string) (c : ascii) : bool :=
  bool_decide (c ∈ list_ascii_of_string cutset).

(** [strings.Trim] for a cutset of ASCII characters, where Go trims byte
    by byte: first on the right, then on the left. *)
Fixpoint trimRight (s cutset : string) : string :=
  match s with
  | EmptyString => EmptyString
  | String c s' =>
      match trimRight s' cutset with
      | EmptyString => if in_cutset cutset c then EmptyString else String c EmptyString
      | r => String c r
      end
  end.
Fixpoint trimLeft (s cutset : string) : string :=
  match s with
  | EmptyString => EmptyString
  | String c s' => if in_cutset cutset c then trimLeft s' cutset else s
  end.
Definition strings_Trim (s cutset : string) : string :=
  trimLeft (trimRight s cutset) cutset.

(** [strings.Split(s, sep)] for a separator of one byte: the pieces of [s]
    between the separators, of which there is always at least one. *)
Fixpoint strings_Split (s : string) (sep : ascii) : list string :=
  match s with
  | EmptyString => [EmptyString]
  | String c s' =>
      if decide (c = sep) then EmptyString :: strings_Split s' sep
      else match strings_Split s' sep with
           | piece :: pieces => String c piece :: pieces
           | [] => [String c EmptyString]
           end
  end.

(** The value written under "wrapping_tokens". *)
Definition joinTokens (wrappingTokens : list string) : string :=
  strings_Trim (strings_Join (strings_Fields (fmt_Sprint wrappingTokens)) ";") "[]".

(** What the specification asks of a wrapping token: no white space (no
    rune for which [unicode.IsSpace] holds), no ";", no "[" and no "]".
    [in_cutset t c] reads "the byte [c] occurs in [t]". *)
Definition has_space (t : string) : bool :=
  existsb (λ u, unicode_IsSpace (fst u)) (runes t).
Definition plain_token (t : string) : bool :=
  negb (has_space t) && negb (in_cutset t ";") && negb (in_cutset t "[")
  && negb (in_cutset t "]").

(** A token that survives the bundle: plain, and not empty. *)
Definition sound_token (t : string) : Prop := t ≠ "" ∧ plain_token t = true.

(** A token that [strings.Fields] keeps whole: not empty, no white space. *)
Definition solid (t : string) : Prop := t ≠ "" ∧ has_space t = false.

(** No byte of [s] is in the cutset. *)
Definition avoids (cutset s : string) : Prop :=
  ∀ c, c ∈ list_ascii_of_string s → in_cutset cutset c = false.

(** The bytes of the runes of a string make up the string. *)
Definition rune_bytes (rs : list (N * string)) : string :=
  foldr (λ u acc, snd u +:+ acc) "" rs.

(** The record that [appendUnseal] writes for a list of tokens. *)
Definition bundle (wrappingTokens : list string) : Data :=
  {[ "wrapping_tokens" := VString (joinTokens wrappingTokens) ]}.

Section Unseal.
Context {V : Type} {VV : Vault V}.

Abbreviation M := (M V).

Definition WrapData (ttl : string) (data : Data) : M (string * option error) :=
  call (CallWrap ttl data) (vault_WrapData ttl data).

(** The tokens already in the bundle: none when there is no record, the
    pieces of its "wrapping_tokens" otherwise. *)
Definition readTokens (resp : option Data) : list string + error :=
  match resp with
  | None => inl []
  | Some data =>
      let raw := string_field data "wrapping_tokens" in
      if decide (raw = "")
      then inr (errors_New "Could not find key 'wrapping_tokens' in cubbyhole")
      else inl (strings_Split raw ";")
  end.

Definition appendUnseal (hash unseal : string) : M (list string * option error) :=
  read <- ReadFromCubbyhole ("unseal_wrapping_tokens/" +:+ hash) ;;
  let '(resp, err) := read in
  match err with
  | Some e => ret ([], Some e)
  | None =>
      match readTokens resp with
      | inr e => ret ([], Some e)
      | inl wrappingTokens =>
          wrapped <- WrapData "60m" {[ "unseal_token" := VString unseal ]} ;;
          let '(newWrappingToken, err) := wrapped in
          match err with
          | Some e => ret ([], Some e)
          | None =>
              let wrappingTokens := (wrappingTokens ++ [newWrappingToken])%list in
              err <- WriteToCubbyhole ("unseal_wrapping_tokens/" +:+ hash)
                       (bundle wrappingTokens) ;;
              ret (wrappingTokens, err)
          end
      end
  end.

End Unseal.

(** ** An in-memory instance

    The collaborators, small enough to run: a base64 codec, a vault held in
    memory and the policy-request variant. *)

(** The alphabet of [StdEncoding]. *)
Definition b64_char (n : N) : ascii :=
  if n <? 26 then ascii_of_N (65 + n)
  else if n <? 52 then ascii_of_N (71 + n)
  else if n <? 62 then ascii_of_N (n - 4)
  else if n =? 62 then "+"%char else "/"%char.

Definition b64_index (c : ascii) : option N :=
  let n := N_of_ascii c in
  if (65 <=? n) && (n <=? 90) then Some (n - 65)
  else if (97 <=? n) && (n <=? 122) then Some (n - 71)
  else if (48 <=? n) && (n <=? 57) then Some (n + 4)
  else if n =? 43 then Some 62
  else if n =? 47 then Some 63
  else None.

Definition byte_of (n : N) : Byte.byte := default Byte.x00 (Byte.of_N (n mod 256)).

Fixpoint b64_encode (bs : list Byte.byte) : string :=
  match bs with
  | [] => ""
  | [a] =>
      let n := Byte.to_N a * 65536 in
      String (b64_char (n / 262144)) (String (b64_char (n / 4096 mod 64)) "==")
  | [a; b] =>
      let n := Byte.to_N a * 65536 + Byte.to_N b * 256 in
      String (b64_char (n / 262144)) (String (b64_char (n / 4096 mod 64))
        (String (b64_char (n / 64 mod 64)) "="))
  | a :: b :: c :: rest =>
      let n := Byte.to_N a * 65536 + Byte.to_N b * 256 + Byte.to_N c in
      String (b64_char (n / 262144)) (String (b64_char (n / 4096 mod 64))
        (String (b64_char (n / 64 mod 64)) (String (b64_char (n mod 64))
          (b64_encode rest))))
  end.

Definition errCorrupt : error := errors_New "illegal base64 data".

(** Padded input without line breaks; anything else is refused. *)
Fixpoint b64_decode (s : string) : list Byte.byte + error :=
  match s with
  | EmptyString => inl []
  | String c1 (String c2 (String c3 (String c4 rest))) =>
      match b64_index c1, b64_index c2 with
      | Some n1, Some n2 =>
          if decide (c3 = "="%char ∧ c4 = "="%char ∧ rest = "")
          then inl [byte_of ((n1 * 64 + n2) / 16)]
          else match b64_index c3 with
          | None => inr errCorrupt
          | Some n3 =>
              if decide (c4 = "="%char ∧ rest = "")
              then inl [byte_of ((n1 * 4096 + n2 * 64 + n3) / 1024);
                        byte_of ((n1 * 4096 + n2 * 64 + n3) / 4)]
              else match b64_index c4 with
              | None => inr errCorrupt
              | Some n4 =>
                  let n := n1 * 262144 + n2 * 4096 + n3 * 64 + n4 in
                  match b64_decode rest with
                  | inr e => inr e
                  | inl bs => inl (byte_of (n / 65536) :: byte_of (n / 256) :: byte_of n :: bs)
                  end
              end
          end
      | _, _ => inr errCorrupt
      end
  | _ => inr errCorrupt
  end.

#[global] Instance std_base64 : Base64 :=
  {| base64_EncodeToString := b64_encode; base64_DecodeString := b64_decode |}.

(** An excerpt of the case table, enough for the examples: the capitals
    of Latin-1, and the three runes that Unicode lowers across blocks,
    U+0130 (capital I with dot above) to "i", U+212A (Kelvin sign) to "k"
    and U+212B (Angstrom sign) to U+00E5.  Of the runes above ASCII, the
    first two are the ones that are lowered into ASCII.  Every other rune
    is left as it is here, which Go's table does not do (Greek and
    Cyrillic capitals, for instance, have entries). *)
Definition excerpt_To_LowerCase (r : N) : N :=
  if (192 <=? r) && (r <=? 222) && negb (r =? 215) then r + 32
  else if r =? 304 then 105
  else if r =? 8490 then 107
  else if r =? 8491 then 229
  else r.

#[global] Instance excerpt_case_table : CaseTable :=
  {| unicode_To_LowerCase := excerpt_To_LowerCase |}.

(** A root generation in flight. *)
Record RootGen := mkRootGen {
  gen_nonce : string;
  gen_otp : string;
  gen_progress : nat
}.

(** The vault: the caller's cubbyhole, the policies, the client tokens it
    accepts, and what the examples steer: whether writes fail, the
    wrapping tokens it issues next, the bytes the entropy source yields
    next, the unseal keys with their threshold, the root token they
    protect, the attempt in flight and whether cancelling fails. *)
Record MemVault := mkMemVault {
  cubbyhole : gmap string Data;
  policies : gmap string string;
  clients : gset string;
  write_failure : option error;
  wrapping_tokens : list string;
  entropy : list Byte.byte;
  unseal_keys : list string;
  threshold : nat;
  root_token : list Byte.byte;
  root_gen : option RootGen;
  cancel_failure : option error
}.

Definition with_cubbyhole (f : gmap string Data → gmap string Data) (v : MemVault) : MemVault :=
  mkMemVault (f (cubbyhole v)) (policies v) (clients v) (write_failure v)
    (wrapping_tokens v) (entropy v) (unseal_keys v) (threshold v) (root_token v)
    (root_gen v) (cancel_failure v).
Definition with_policies (f : gmap string string → gmap string string) (v : MemVault) : MemVault :=
  mkMemVault (cubbyhole v) (f (policies v)) (clients v) (write_failure v)
    (wrapping_tokens v) (entropy v) (unseal_keys v) (threshold v) (root_token v)
    (root_gen v) (cancel_failure v).
Definition with_wrapping_tokens (l : list string) (v : MemVault) : MemVault :=
  mkMemVault (cubbyhole v) (policies v) (clients v) (write_failure v)
    l (entropy v) (unseal_keys v) (threshold v) (root_token v)
    (root_gen v) (cancel_failure v).
Definition with_entropy (l : list Byte.byte) (v : MemVault) : MemVault :=
  mkMemVault (cubbyhole v) (policies v) (clients v) (write_failure v)
    (wrapping_tokens v) l (unseal_keys v) (threshold v) (root_token v)
    (root_gen v) (cancel_failure v).
Definition with_root_gen (g : option RootGen) (v : MemVault) : MemVault :=
  mkMemVault (cubbyhole v) (policies v) (clients v) (write_failure v)
    (wrapping_tokens v) (entropy v) (unseal_keys v) (threshold v) (root_token v)
    g (cancel_failure v).

Definition mem_read (path : string) (v : MemVault) : (option Data * option error) * MemVault :=
  ((cubbyhole v !! path, None), v).

Definition mem_write (path : string) (data : Data) (v : MemVault) : option error * MemVault :=
  match write_failure v with
  | Some e => (Some e, v)
  | None => (None, with_cubbyhole (insert path data) v)
  end.

Definition mem_wrap (ttl : string) (data : Data) (v : MemVault) : (string * option error) * MemVault :=
  match wrapping_tokens v with
  | [] => (("", Some (errors_New "no wrapping token left")), v)
  | t :: rest => ((t, None), with_wrapping_tokens rest v)
  end.

Definition mem_root_init (otp : string) (v : MemVault) : (RootStatus * option error) * MemVault :=
  ((mkRootStatus "nonce-1" "", None), with_root_gen (Some (mkRootGen "nonce-1" otp 0)) v).

(** The token as the vault hands it over: the root token under the pad. *)
Definition mem_encode_root (v : MemVault) (otp : string) : string :=
  match b64_decode otp with
  | inl pad => b64_encode (xor_loop (root_token v) pad)
  | inr _ => ""
  end.

Definition mem_root_update (share nonce : string) (v : MemVault)
    : (RootStatus * option error) * MemVault :=
  match root_gen v with
  | None => ((mkRootStatus "" "", Some (errors_New "no root generation in progress")), v)
  | Some g =>
      if decide (nonce ≠ gen_nonce g)
      then ((mkRootStatus "" "", Some (errors_New "invalid nonce")), v)
      else if decide (share ∉ unseal_keys v)
      then ((mkRootStatus "" "", Some (errors_New "invalid unseal key")), v)
      else if decide (S (gen_progress g) < threshold v)%nat
      then ((mkRootStatus nonce "", None),
            with_root_gen (Some (mkRootGen nonce (gen_otp g) (S (gen_progress g)))) v)
      else ((mkRootStatus nonce (mem_encode_root v (gen_otp g)), None), with_root_gen None v)
  end.

Definition mem_root_cancel (v : MemVault) : option error * MemVault :=
  match cancel_failure v with
  | Some e => (Some e, v)
  | None => (None, with_root_gen None v)
  end.

Definition mem_random (n : nat) (v : MemVault) : list Byte.byte * MemVault :=
  (take n (entropy v), with_entropy (drop n (entropy v)) v).

#[global] Instance mem_vault : Vault MemVault :=
  {| vault_ReadFromCubbyhole := mem_read;
     vault_WriteToCubbyhole := mem_write;
     vault_WrapData := mem_wrap;
     vault_GenerateRootInit := mem_root_init;
     vault_GenerateRootUpdate := mem_root_update;
     vault_GenerateRootCancel := mem_root_cancel;
     securecookie_GenerateRandomKey := mem_random |}.

(** Modelled from the spec: the policy-request variant, whose source
    (policy.go) is not in this file.  The spec gives its fields as the
    discriminator, the target policy name, the proposed policy document,
    an approval counter and the required approval count; [Previous] is the
    document the proposal was made against, which is what lets the validity
    check see a change made out-of-band. *)
Record PolicyRequest := mkPolicyRequest {
  Type_ : string;
  PolicyName : string;
  Previous : string;
  Proposed : string;
  Progress : Z;
  Required : Z
}.

Definition policy_Map (r : PolicyRequest) : Data :=
  {[ "Type" := VString (Type_ r);
     "PolicyName" := VString (PolicyName r);
     "Previous" := VString (Previous r);
     "Proposed" := VString (Proposed r);
     "Progress" := VInt (Progress r);
     "Required" := VInt (Required r) ]}.

(** A field of a decoded struct: the zero value when the key is absent, an
    error when it holds a value of another type. *)
Definition decode_string (m : Data) (k : string) : string + error :=
  match m !! k with
  | None => inl ""
  | Some (VString s) => inl s
  | Some _ => inr ("'" +:+ k +:+ "' expected type 'string'")
  end.
Definition decode_int (m : Data) (k : string) : Z + error :=
  match m !! k with
  | None => inl 0%Z
  | Some (VInt n) => inl n
  | Some _ => inr ("'" +:+ k +:+ "' expected type 'int'")
  end.

Definition policy_Decode (m : Data) : PolicyRequest + error :=
  match decode_string m "Type", decode_string m "PolicyName",
        decode_string m "Previous", decode_string m "Proposed",
        decode_int m "Progress", decode_int m "Required" with
  | inl t, inl n, inl c, inl p, inl g, inl q => inl (mkPolicyRequest t n c p g q)
  | inr e, _, _, _, _, _ | _, inr e, _, _, _, _ | _, _, inr e, _, _, _
  | _, _, _, inr e, _, _ | _, _, _, _, inr e, _ | _, _, _, _, _, inr e => inr e
  end.

(** FNV-1a on 64 bits, the hash function [hashstructure] builds on. *)
Fixpoint fnv1a (s : string) (h : N) : N :=
  match s with
  | EmptyString => h
  | String c s' => fnv1a s' ((N.lxor h (N_of_ascii c) * 1099511628211) mod 2 ^ 64)
  end.

(** The fingerprint covers the fields that never change; the approval
    counter is left out, as an approval rewrites the record under the same
    key. *)
Definition policy_Hash (r : PolicyRequest) : N * option error :=
  (fnv1a (Proposed r)
    (fnv1a (Previous r)
      (fnv1a (PolicyName r)
        (fnv1a (Type_ r) 14695981039346656037))), None).

#[global] Instance policy_struct : StructOps PolicyRequest :=
  {| structs_Map := policy_Map;
     mapstructure_Decode := policy_Decode;
     hashstructure_Hash := policy_Hash |}.

Definition errDenied : error := errors_New "permission denied".
Definition errStale : error := errors_New "Policy has been changed since request was made".

(** A step on the vault behind the adapter. *)
Definition on_backend {X} (f : MemVault → X * MemVault) : M MemVault X :=
  λ w, let '(x, v) := f (backend w) in
       (x, mkWorld (lockMap w) (lockRoot w) v (calls w)).

(** Modelled from the spec: [Create] validates the caller and the fields
    and builds the request; its identifier is the fingerprint. *)
Definition policy_Create (auth : string) (raw : Data)
    : M MemVault (PolicyRequest * (string * option error)) :=
  on_backend (λ v,
    let name := string_field raw "PolicyName" in
    let req := mkPolicyRequest "policy" name (default "" (policies v !! name))
                 (string_field raw "Proposed") 0 2 in
    if decide (auth ∉ clients v) then ((req, ("", Some errDenied)), v)
    else if decide (name = "") then ((req, ("", Some (errors_New "Policy name is empty"))), v)
    else ((req, (strconv_FormatUint16 (policy_Hash req).1, None)), v)).

(** Modelled from the spec: [Verify] is the validity check against the
    current state: the caller may see the policy, and the policy is still
    the one the proposal was made against. *)
Definition policy_Verify (r : PolicyRequest) (auth : string) : M MemVault (option error) :=
  on_backend (λ v,
    if decide (auth ∉ clients v) then (Some errDenied, v)
    else if decide (default "" (policies v !! PolicyName r) ≠ Previous r)
    then (Some errStale, v)
    else (None, v)).

(** Modelled from the spec: [Reject] runs the validity check, which
    re-checks the caller's authorization to view the resource and fails
    for a request whose target has changed (sections 4.2 and 4.4); a
    request that passes is deleted from the store. *)
Definition policy_Reject (r : PolicyRequest) (auth hash : string) : M MemVault (option error) :=
  err <- policy_Verify r auth ;;
  match err with
  | Some e => ret (Some e)
  | None => on_backend (λ v, (None, with_cubbyhole (delete ("requests/" +:+ hash)) v))
  end.

(** Modelled from the spec: [Approve] without a share counts one more
    approval; at the required count the proposed document is written and
    the request deleted, below it the request is stored again.  With a
    share, the share joins the bundle. *)
Definition policy_Approve (r : PolicyRequest) (hash unseal : string) : M MemVault (option error) :=
  if decide (unseal = "") then
    on_backend (λ v,
      let r' := mkPolicyRequest (Type_ r) (PolicyName r) (Previous r) (Proposed r)
                  (Progress r + 1) (Required r) in
      if decide (Required r ≤ Progress r')%Z
      then (None, with_policies (insert (PolicyName r) (Proposed r))
                    (with_cubbyhole (delete ("requests/" +:+ hash)) v))
      else (None, with_cubbyhole (insert ("requests/" +:+ hash) (policy_Map r')) v))
  else
    r <- appendUnseal hash unseal ;; ret (snd r).

#[global] Instance policy_request : Req.Request MemVault string PolicyRequest :=
  {| Req.IsRootOnly := λ _, false;
     Req.Verify := policy_Verify;
     Req.Approve := policy_Approve;
     Req.Reject := policy_Reject;
     Req.Create := policy_Create |}.

(** A vault with one client, one policy and three unseal keys of which two
    are needed. *)
Definition vault0 : MemVault :=
  {| cubbyhole := ∅;
     policies := {[ "readonly" := "path * { read }" ]};
     clients := {[ "alice" ]};
     write_failure := None;
     wrapping_tokens := ["wt-1"; "wt-2"; "wt-3"];
     entropy := [Byte.x01; Byte.x23; Byte.x45; Byte.x67; Byte.x89; Byte.xab; Byte.xcd; Byte.xef;
                 Byte.xfe; Byte.xdc; Byte.xba; Byte.x98; Byte.x76; Byte.x54; Byte.x32; Byte.x10];
     unseal_keys := ["key-a"; "key-b"; "key-c"];
     threshold := 2;
     root_token := [Byte.xde; Byte.xad; Byte.xbe; Byte.xef; Byte.x00; Byte.x11; Byte.x22; Byte.x33;
                    Byte.x44; Byte.x55; Byte.x66; Byte.x77; Byte.x88; Byte.x99; Byte.xaa; Byte.xbb];
     root_gen := None;
     cancel_failure := None |}.

Definition world0 : World MemVault := mkWorld ∅ false vault0 [].

(** The fields a caller submits. *)
Definition raw0 : Data :=
  {[ "Type" := VString "Policy";
     "PolicyName" := VString "readonly";
     "Proposed" := VString "path * { deny }" ]}.

(** The request that [raw0] describes, and its fingerprint. *)
Definition req0 : PolicyRequest :=
  mkPolicyRequest "policy" "readonly" "path * { read }" "path * { deny }" 0 2.
Definition hash0 : string := "6c0e8ed9a163e525".

(** The world after alice has added the request. *)
Definition world1 : World MemVault :=
  snd (Add "alice" raw0 world0).

(** Changes made behind the back of the package: to a field of a stored
    record, to a policy, to the vault's readiness to write, and a key that
    another operation holds. *)
Definition tamper (path field : string) (x : value) (w : World MemVault) : World MemVault :=
  mkWorld (lockMap w) (lockRoot w)
    (with_cubbyhole (λ c, match c !! path with
                          | Some data => <[path := <[field := x]> data]> c
                          | None => c
                          end) (backend w))
    (calls w).
Definition rewrite_policy (name doc : string) (w : World MemVault) : World MemVault :=
  mkWorld (lockMap w) (lockRoot w) (with_policies (insert name doc) (backend w)) (calls w).
Definition seal (e : error) (w : World MemVault) : World MemVault :=
  let v := backend w in
  mkWorld (lockMap w) (lockRoot w)
    (mkMemVault (cubbyhole v) (policies v) (clients v) (Some e)
       (wrapping_tokens v) (entropy v) (unseal_keys v) (threshold v) (root_token v)
       (root_gen v) (cancel_failure v))
    (calls w).

Definition world_tampered : World MemVault :=
  tamper ("requests/" +:+ hash0) "Proposed" (VString "path * { sudo }") world1.
Definition world_retyped : World MemVault :=
  tamper ("requests/" +:+ hash0) "Type" (VString "plan") world1.
Definition world_stale : World MemVault :=
  rewrite_policy "readonly" "path * { list }" world1.
Definition world_busy : World MemVault := claimed hash0 world1.
Definition world_sealed : World MemVault := seal (errors_New "Vault is sealed") world0.

(** A vault that refuses to cancel a root generation. *)
Definition world_nocancel : World MemVault :=
  let v := vault0 in
  mkWorld ∅ false
    (mkMemVault (cubbyhole v) (policies v) (clients v) (write_failure v)
       (wrapping_tokens v) (entropy v) (unseal_keys v) (threshold v) (root_token v)
       (root_gen v) (Some (errors_New "Vault is sealed")))
    [].

(** A vault that issues the empty string as its next wrapping token. *)
Definition world_blank : World MemVault :=
  mkWorld ∅ false (with_wrapping_tokens [""; "wt-2"] vault0) [].

(** The pad that [entropy] yields, in base64. *)
Definition otp0 : string := "ASNFZ4mrze/+3LqYdlQyEA==".

(** ** Unwrapping the bundle *)

(** [vault.UnwrapData]: the payload behind a wrapping token. *)
Class VaultUnwrap (V : Type) := {
  vault_UnwrapData : string → V → (Data * option error) * V
}.

Definition errTimedOut : error :=
  errors_New "One of the wrapping tokens timed out. Progress reset.".

Section Unwrap.
Context {V : Type} {VU : VaultUnwrap V}.

Abbreviation M := (M V).

Definition UnwrapData (wrappingToken : string) : M (Data * option error) :=
  env (vault_UnwrapData wrappingToken).

(** The loop of [unwrapUnseals], with the named result [unseals] as it
    stands.  [None] is a panic: the assertion [unseal.(string)] has no
    comma-ok form. *)
Fixpoint unwrapLoop (wrappingTokens : list string) (unseals : list string)
    : M (option (list string * option error)) :=
  match wrappingTokens with
  | [] => ret (Some (unseals, None))
  | wrappingToken :: rest =>
      r <- UnwrapData wrappingToken ;;
      let '(data, err) := r in
      match err with
      | Some e => ret (Some ([], Some e))
      | None =>
          match data !! "unseal_token" with
          | Some (VString unseal) => unwrapLoop rest (unseals ++ [unseal])
          | Some _ => ret None
          | None => ret (Some ([], Some errTimedOut))
          end
      end
  end.

Definition unwrapUnseals (wrappingTokens : list string)
    : M (option (list string * option error)) :=
  unwrapLoop wrappingTokens [].

End Unwrap.

(** A step that leaves the lock map as it is. *)
Definition keeps_lockMap {V X} (m : M V X) : Prop :=
  ∀ w, lockMap (snd (m w)) = lockMap w.

(** The variant does not reach for the lock map of the dispatcher. *)
Definition variant_keeps_lockMap {V A R} {RQ : Req.Request V A R} : Prop :=
  (∀ auth raw, keeps_lockMap (Req.Create auth raw))
  ∧ (∀ req auth, keeps_lockMap (Req.Verify req auth))
  ∧ (∀ req hash unseal, keeps_lockMap (Req.Approve req hash unseal))
  ∧ (∀ req auth hash, keeps_lockMap (Req.Reject req auth hash)).

(** Wrapped payloads of the in-memory vault live in the cubbyhole under a
    prefix of their own; unwrapping one uses it up. *)
Definition mem_unwrap (token : string) (v : MemVault) : (Data * option error) * MemVault :=
  match cubbyhole v !! ("wrapped/" +:+ token) with
  | Some data => ((data, None), with_cubbyhole (delete ("wrapped/" +:+ token)) v)
  | None => ((∅, Some (errors_New "wrapping token is not valid or does not exist")), v)
  end.

#[global] Instance mem_vault_unwrap : VaultUnwrap MemVault :=
  {| vault_UnwrapData := mem_unwrap |}.

(** A vault that holds two wrapped shares, a wrapped payload without a
    share in it, and a bundle of two tokens under the fingerprint "h". *)
Definition world_wrapped : World MemVault :=
  mkWorld ∅ false
    (with_cubbyhole
       (λ _, {[ "wrapped/wt-1" := {[ "unseal_token" := VString "key-a" ]};
                "wrapped/wt-2" := {[ "unseal_token" := VString "key-c" ]};
                "wrapped/wt-9" := ∅;
                "unseal_wrapping_tokens/h" := {[ "wrapping_tokens" := VString "wt-1;wt-2" ]};
                "unseal_wrapping_tokens/broken" := {[ "wrapping_tokens" := VInt 7 ]} ]})
       (with_wrapping_tokens ["wt-3"] vault0))
    [].

(** A vault whose root generation completes at once. *)
Definition mem_root_init_done (otp : string) (v : MemVault)
    : (RootStatus * option error) * MemVault :=
  ((mkRootStatus "nonce-1" (mem_encode_root v otp), None), v).
Definition mem_vault_done : Vault MemVault :=
  {| vault_ReadFromCubbyhole := mem_read;
     vault_WriteToCubbyhole := mem_write;
     vault_WrapData := mem_wrap;
     vault_GenerateRootInit := mem_root_init_done;
     vault_GenerateRootUpdate := mem_root_update;
     vault_GenerateRootCancel := mem_root_cancel;
     securecookie_GenerateRandomKey := mem_random |}.

(** A vault that cannot start a root generation. *)
Definition mem_vault_down : Vault MemVault :=
  {| vault_ReadFromCubbyhole := λ _ v, ((None, Some (errors_New "Vault is sealed")), v);
     vault_WriteToCubbyhole := mem_write;
     vault_WrapData := λ _ _ v, (("", Some (errors_New "Vault is sealed")), v);
     vault_GenerateRootInit := λ _ v, ((mkRootStatus "" "", Some (errors_New "Vault is sealed")), v);
     vault_GenerateRootUpdate := mem_root_update;
     vault_GenerateRootCancel := mem_root_cancel;
     securecookie_GenerateRandomKey := mem_random |}.

(** A stored record with a string where the decoder expects a number, and
    fields of a type that no variant serves. *)
Definition world_garbled : World MemVault :=
  tamper ("requests/" +:+ hash0) "Required" (VString "two") world1.
Definition raw_other : Data :=
  {[ "Type" := VString "Token"; "PolicyName" := VString "readonly" ]}.

(** "POL", U+0130 (capital I with dot above, the bytes c4 b0) and "CY":
    a type that is not ASCII and that [strings.ToLower] turns into
    "policy".  Fields of that type, and the stored record with its "Type"
    overwritten by it. *)
Definition dotted_policy : string :=
  "POL" +:+ String (ascii_of_N 196) (String (ascii_of_N 176) "CY").
Definition raw_dotted : Data :=
  {[ "Type" := VString dotted_policy; "PolicyName" := VString "readonly" ]}.
Definition world_dotted : World MemVault :=
  tamper ("requests/" +:+ hash0) "Type" (VString dotted_policy) world1.

(** The white-space characters of ASCII: tab, line feed, vertical tab,
    form feed, carriage return and space. *)
Definition ascii_space (c : ascii) : bool :=
  unicode_IsSpace (N_of_ascii c) && (N_of_ascii c <? 128).

(** The value of a string of hexadecimal digits, most significant digit
    first: what a fingerprint spells. *)
Definition hex_value_of (c : ascii) : N :=
  let n := N_of_ascii c in if n <? 58 then n - 48 else n - 87.
Fixpoint hex_parse (s : string) (acc : N) : N :=
  match s with
  | EmptyString => acc
  | String c s' => hex_parse s' (acc * 16 + hex_value_of c)
  end.


(** * Properties *)

(** ** The lock map *)

Lemma hex_digits_nonempty fuel n acc : acc ≠ "" → hex_digits fuel n acc ≠ "".
Proof.
  revert n acc. induction fuel as [|fuel IH]; intros n acc Hacc; simpl; [done|].
  destruct (n / 16 =? 0); [done|]. by apply IH.
Qed.

Lemma FormatUint16_nonempty n : strconv_FormatUint16 n ≠ "".
Proof.
  unfold strconv_FormatUint16. simpl.
  destruct (n / 16 =? 0); [done|]. by apply hex_digits_nonempty.
Qed.

Section LockMap.
Context {V : Type}.
Implicit Types (w : World V) (k : string).

Lemma LoadOrStore_held k w :
  k ∈ lockMap w → lockMap_LoadOrStore k w = (true, w).
Proof. intros Hk. unfold lockMap_LoadOrStore. by rewrite bool_decide_eq_true_2. Qed.

Lemma LoadOrStore_free k w :
  k ∉ lockMap w →
  lockMap_LoadOrStore k w = (false, claimed k w).
Proof. intros Hk. unfold lockMap_LoadOrStore. by rewrite bool_decide_eq_false_2. Qed.

(** Whatever the body does, the deferred [Delete] has removed the key when
    the function returns. *)
Lemma defer_Delete_released {X} k (body : M V X) w :
  k ∉ lockMap (snd (defer (lockMap_Delete k) body w)).
Proof.
  unfold defer, bind, lockMap_Delete, ret. destruct (body w) as [r w1]. simpl.
  intros [_ Hk]%elem_of_difference. apply Hk. by apply elem_of_singleton.
Qed.

Lemma defer_Delete_result {X} k (body : M V X) w :
  defer (lockMap_Delete k) body w
  = (fst (body w), released k (snd (body w))).
Proof. unfold defer, bind, lockMap_Delete, ret. by destruct (body w). Qed.

(** Taking a free key and giving it back leaves the set as it was. *)
Lemma claim_release k (s : gset string) : k ∉ s → ({[k]} ∪ s) ∖ {[k]} = s.
Proof.
  intros Hk. apply set_eq. intros x.
  rewrite elem_of_difference, elem_of_union, !elem_of_singleton. split.
  - intros [[->|Hx] Hne]; done.
  - intros Hx. split; [by right|]. by intros ->.
Qed.

End LockMap.

Section DispatcherFacts.
Context {CT : CaseTable} {V A R : Type} {VV : Vault V} {RQ : Req.Request V A R} {SO : StructOps R}.
Implicit Types (w : World V) (auth : A) (hash unseal : string) (raw : Data).

Lemma Add_policy auth raw w :
  selects_policy raw →
  Add auth raw w =
    (let '(req, (hash, err)) := (Req.Create auth raw w).1 in
     let w1 := (Req.Create auth raw w).2 in
     match err with
     | Some e => (("", Some e), w1)
     | None =>
         if bool_decide (hash ∈ lockMap w1) then (("", Some errConflict), w1)
         else defer (lockMap_Delete hash)
                (err <- WriteToCubbyhole ("requests/" +:+ hash) (structs_Map req) ;;
                 ret (hash, err))
                (claimed hash w1)
     end).
Proof.
  intros [Ht Hp]. unfold Add.
  destruct (decide (string_field raw "Type" = "")) as [|_]; [done|].
  destruct (decide (strings_ToLower (string_field raw "Type") = "policy")) as [_|]; [|done].
  unfold bind at 1. destruct (Req.Create auth raw w) as [[req [hash [e|]]] w1]; simpl; [done|].
  unfold bind at 1, lockMap_LoadOrStore.
  by destruct (bool_decide (hash ∈ lockMap w1)).
Qed.

(** C3. A fingerprint that is in the busy-set: [Get], [Approve] and
    [Reject] on it return the conflict error ("Someone else is currently
    editing this request") and the world they were called in, so that
    nothing was read or written and the entry is still there; [Add], once
    [Create] has produced that fingerprint, returns the same error and the
    world [Create] left, without a write. *)
Theorem busy_fingerprint_conflict auth raw hash unseal w :
  hash ∈ lockMap w →
  Get auth hash w = ((None, Some errConflict), w)
  ∧ Approve auth hash unseal w = (Some errConflict, w)
  ∧ Reject auth hash w = (Some errConflict, w)
  ∧ (∀ req w1,
       selects_policy raw →
       Req.Create auth raw w = ((req, (hash, None)), w1) →
       hash ∈ lockMap w1 →
       Add auth raw w = (("", Some errConflict), w1) ∧ hash ∈ lockMap w1).
Proof.
  intros Hheld. split; [|split; [|split]].
  - unfold Get, bind. by rewrite LoadOrStore_held.
  - unfold Approve, bind. by rewrite LoadOrStore_held.
  - unfold Reject, bind. by rewrite LoadOrStore_held.
  - intros req w1 Hp Hc Hw1. split; [|done].
    rewrite Add_policy by done. rewrite Hc. simpl. by rewrite bool_decide_eq_true_2.
Qed.

(** C4. A call that claims its fingerprint (the fingerprint was not in
    the busy-set) has removed it again when it returns, whichever path it
    takes through the body: this holds for every vault and every variant,
    hence for every error the body can run into. *)
Theorem claimed_fingerprint_released auth raw hash unseal w :
  hash ∉ lockMap w →
  (hash ∉ lockMap (snd (Get auth hash w)))
  ∧ (hash ∉ lockMap (snd (Approve auth hash unseal w)))
  ∧ (hash ∉ lockMap (snd (Reject auth hash w)))
  ∧ (∀ req w1,
       selects_policy raw →
       Req.Create auth raw w = ((req, (hash, None)), w1) →
       hash ∉ lockMap w1 →
       hash ∉ lockMap (snd (Add auth raw w))).
Proof.
  intros Hfree. split; [|split; [|split]].
  - unfold Get, bind at 1. rewrite LoadOrStore_free by done. apply defer_Delete_released.
  - unfold Approve, bind at 1. rewrite LoadOrStore_free by done. apply defer_Delete_released.
  - unfold Reject, bind at 1. rewrite LoadOrStore_free by done. apply defer_Delete_released.
  - intros req w1 Hp Hc Hw1. rewrite Add_policy by done. rewrite Hc. simpl.
    rewrite bool_decide_eq_false_2 by done. apply defer_Delete_released.
Qed.

(** C10. When the write of a newly built request fails, [Add] returns the
    fingerprint that [Create] computed, which is not empty, together with
    the error of the write. *)
Theorem Add_returns_hash_with_write_error auth raw w req hash w1 e v2 :
  selects_policy raw →
  Req.Create auth raw w = ((req, (hash, None)), w1) →
  fingerprint req = Some hash →
  hash ∉ lockMap w1 →
  vault_WriteToCubbyhole ("requests/" +:+ hash) (structs_Map req) (backend w1) = (Some e, v2) →
  Add auth raw w =
    ((hash, Some e),
     mkWorld (lockMap w1) (lockRoot w1) v2
       (calls w1 ++ [CallWrite ("requests/" +:+ hash) (structs_Map req)]))
  ∧ hash ≠ "".
Proof.
  intros Hp Hc Hf Hfree Hwrite. split.
  - rewrite Add_policy by done. rewrite Hc. simpl.
    rewrite bool_decide_eq_false_2 by done. rewrite defer_Delete_result.
    unfold bind, WriteToCubbyhole, call, ret, released, claimed, set_lockMap. simpl.
    rewrite Hwrite. simpl. by rewrite claim_release.
  - unfold fingerprint in Hf. destruct (hashstructure_Hash req) as [h [err|]]; [done|].
    injection Hf as <-. apply FormatUint16_nonempty.
Qed.

End DispatcherFacts.

(** ** Loading a stored request *)

Section LoadFacts.
Context {CT : CaseTable} {V A R : Type} {VV : Vault V} {RQ : Req.Request V A R} {SO : StructOps R}.
Implicit Types (w : World V) (auth : A) (hash unseal : string) (data : Data) (req : R).

Lemma hash_mismatch_true req hash :
  hash_mismatch req hash = true ↔ fingerprint req ≠ Some hash.
Proof.
  unfold hash_mismatch, fingerprint.
  destruct (hashstructure_Hash req) as [h [e|]];
    rewrite orb_true_iff, !bool_decide_eq_true.
  - split; [done|]. intros _. by left.
  - split; [intros [?|?]; congruence|]. intros Hne. right. congruence.
Qed.

Lemma hash_mismatch_false req hash :
  hash_mismatch req hash = false ↔ fingerprint req = Some hash.
Proof.
  destruct (hash_mismatch req hash) eqn:Hm.
  - apply hash_mismatch_true in Hm. split; [done|]. intros; contradiction.
  - split; [|done]. intros _.
    destruct (decide (fingerprint req = Some hash)) as [|Hne]; [done|].
    apply hash_mismatch_true in Hne. congruence.
Qed.

(** [load] makes exactly one call, the read. *)
Lemma load_world hash w :
  snd (load hash w) = after_read ("requests/" +:+ hash) w.
Proof.
  unfold load, after_read, bind, ReadFromCubbyhole, call, ret.
  destruct (vault_ReadFromCubbyhole _ _) as [[resp err] v]. simpl.
  destruct err; [done|]. destruct resp as [data|]; [|done].
  destruct (decide _); [done|]. destruct (decide _); [|done].
  destruct (mapstructure_Decode data); [|done].
  by destruct (hash_mismatch _ _).
Qed.

(** A record that selects the policy variant and decodes: the hash check
    decides. *)
Lemma load_policy hash w data req :
  fst (vault_ReadFromCubbyhole ("requests/" +:+ hash) (backend w)) = (Some data, None) →
  selects_policy data →
  mapstructure_Decode data = inl req →
  fst (load hash w) = if hash_mismatch req hash then inr errHashes else inl req.
Proof.
  intros Hread [Ht Hp] Hdec.
  unfold load, bind, ReadFromCubbyhole, call, ret.
  destruct (vault_ReadFromCubbyhole _ _) as [[resp err] v]. simpl in *.
  injection Hread as -> ->.
  destruct (decide _); [done|]. destruct (decide _); [|done].
  rewrite Hdec. by destruct (hash_mismatch _ _).
Qed.

(** A record none of whose decodings has the fingerprint [hash] never
    loads. *)
Lemma load_tampered hash w data :
  fst (vault_ReadFromCubbyhole ("requests/" +:+ hash) (backend w)) = (Some data, None) →
  (∀ req, mapstructure_Decode data = inl req → fingerprint req ≠ Some hash) →
  ∃ e, fst (load hash w) = inr e
       ∧ (selects_policy data → (∃ req, mapstructure_Decode data = inl req) → e = errHashes)
       ∧ (selects_policy data → ∀ e', mapstructure_Decode data = inr e' → e = e')
       ∧ (¬ selects_policy data →
          e = if decide (string_field data "Type" = "")
              then errors_New "Invalid request type"
              else errors_New ("Invalid request type: " +:+ string_field data "Type")).
Proof.
  intros Hread Htamper.
  unfold load, bind, ReadFromCubbyhole, call, ret, selects_policy.
  destruct (vault_ReadFromCubbyhole _ _) as [[resp err] v]. simpl in *.
  injection Hread as -> ->.
  destruct (decide _) as [Ht|Ht].
  { eexists. split; [done|]. split; [|split]; [by intros [? _]|by intros [? _]|done]. }
  destruct (decide _) as [Hp|Hp].
  2: { eexists. split; [done|]. split; [|split]; [by intros [_ ?]|by intros [_ ?]|done]. }
  destruct (mapstructure_Decode data) as [req|e] eqn:Hdec.
  - specialize (Htamper req eq_refl). apply hash_mismatch_true in Htamper.
    rewrite Htamper. eexists. split; [done|]. split; [done|].
    split; [by intros _ e'|]. intros Hnot. by destruct Hnot.
  - eexists. split; [done|]. split; [|split].
    + intros _ [req Hreq]. congruence.
    + by intros _ e' [= ->].
    + intros Hnot. by destruct Hnot.
Qed.

(** What the three operations make of the outcome of [load], once they
    hold the lock. *)
Lemma Get_free auth hash w :
  hash ∉ lockMap w →
  Get auth hash w =
    defer (lockMap_Delete hash)
      (r <- load hash ;;
       match r with
       | inr e => ret (None, Some e)
       | inl req =>
           err <- Req.Verify req auth ;;
           match err with
           | Some e => ret (None, Some e)
           | None => ret (Some req, None)
           end
       end) (claimed hash w).
Proof. intros Hfree. unfold Get, bind at 1. by rewrite LoadOrStore_free. Qed.

Lemma Approve_free auth hash unseal w :
  hash ∉ lockMap w →
  Approve auth hash unseal w =
    defer (lockMap_Delete hash)
      (r <- load hash ;;
       match r with
       | inr e => ret (Some e)
       | inl req =>
           err <- Req.Verify req auth ;;
           match err with
           | Some e => ret (Some e)
           | None => Req.Approve req hash unseal
           end
       end) (claimed hash w).
Proof. intros Hfree. unfold Approve, bind at 1. by rewrite LoadOrStore_free. Qed.

Lemma Reject_free auth hash w :
  hash ∉ lockMap w →
  Reject auth hash w =
    defer (lockMap_Delete hash)
      (r <- load hash ;;
       match r with
       | inr e => ret (Some e)
       | inl req => Req.Reject req auth hash
       end) (claimed hash w).
Proof. intros Hfree. unfold Reject, bind at 1. by rewrite LoadOrStore_free. Qed.

(** The world in which a failed [load] leaves the caller: the lock taken
    and given back, the read logged. *)
Lemma released_after_read hash path w :
  hash ∉ lockMap w →
  released hash (after_read path (claimed hash w)) = after_read path w.
Proof.
  intros Hfree. unfold released, claimed, set_lockMap, after_read. simpl.
  by rewrite claim_release.
Qed.

End LoadFacts.

(** ** Integrity, validity and the round trip *)

Section RequestFacts.
Context {CT : CaseTable} {V A R : Type} {VV : Vault V} {RQ : Req.Request V A R} {SO : StructOps R}.
Implicit Types (w : World V) (auth : A) (hash unseal : string) (data : Data) (req : R).

(** C1, amended. A stored record whose recomputed hash is not the key it
    is stored under (whatever it decodes to, its fingerprint differs): each
    of [Get], [Approve] and [Reject] returns an error and the world with
    nothing but the read in it, so the request is neither returned nor
    approved nor rejected.  The error is "Hashes do not match" when the
    "Type" field still selects the policy variant and the record decodes;
    it is the error of [mapstructure.Decode] when the field selects the
    variant and the record does not decode; and when the field does not
    select the variant it is "Invalid request type" (the field is missing,
    empty or no string) or "Invalid request type: " with the stored
    value. *)
Theorem tampered_record_refused auth hash unseal w data :
  hash ∉ lockMap w →
  fst (vault_ReadFromCubbyhole ("requests/" +:+ hash) (backend w)) = (Some data, None) →
  (∀ req, mapstructure_Decode data = inl req → fingerprint req ≠ Some hash) →
  ∃ e,
    Get auth hash w = ((None, Some e), after_read ("requests/" +:+ hash) w)
    ∧ Approve auth hash unseal w = (Some e, after_read ("requests/" +:+ hash) w)
    ∧ Reject auth hash w = (Some e, after_read ("requests/" +:+ hash) w)
    ∧ (selects_policy data → (∃ req, mapstructure_Decode data = inl req) → e = errHashes)
    ∧ (selects_policy data → ∀ e', mapstructure_Decode data = inr e' → e = e')
    ∧ (¬ selects_policy data →
       e = if decide (string_field data "Type" = "")
           then errors_New "Invalid request type"
           else errors_New ("Invalid request type: " +:+ string_field data "Type")).
Proof.
  intros Hfree Hread Htamper.
  destruct (load_tampered hash (claimed hash w) data Hread Htamper)
    as (e & Hload & He & Hdec & Hother).
  pose proof (load_world hash (claimed hash w)) as Hw.
  exists e. split; [|split; [|split]]; [| | |done].
  - rewrite Get_free, defer_Delete_result by done. unfold bind.
    destruct (load hash (claimed hash w)) as [r w1]. cbn [fst snd] in *. subst.
    unfold ret. cbn [fst snd]. by rewrite released_after_read.
  - rewrite Approve_free, defer_Delete_result by done. unfold bind.
    destruct (load hash (claimed hash w)) as [r w1]. cbn [fst snd] in *. subst.
    unfold ret. cbn [fst snd]. by rewrite released_after_read.
  - rewrite Reject_free, defer_Delete_result by done. unfold bind.
    destruct (load hash (claimed hash w)) as [r w1]. cbn [fst snd] in *. subst.
    unfold ret. cbn [fst snd]. by rewrite released_after_read.
Qed.

Lemma load_stored hash w data req :
  stored hash w data req →
  load hash (claimed hash w) = (inl req, after_read ("requests/" +:+ hash) (claimed hash w)).
Proof.
  intros (Hread & Hp & Hdec & Hfp).
  pose proof (load_world hash (claimed hash w)) as Hw.
  pose proof (load_policy hash (claimed hash w) data req Hread Hp Hdec) as Hl.
  apply hash_mismatch_false in Hfp. rewrite Hfp in Hl.
  destruct (load hash (claimed hash w)). simpl in *. by subst.
Qed.

(** C5. A stored, untampered request that fails the variant's validity
    check: each of [Get], [Approve] and [Reject] returns the error of the
    check, in the world the check left with the lock given back, so that
    no request is returned and the variant's [Approve] is not reached.
    [Get] and [Approve] run the check themselves.  [Reject] hands over to
    the variant's [Reject] (it returns what that returns), so its part
    holds for a variant whose [Reject] fails on such a request, as the
    specification asks. *)
Theorem stale_request_refused auth hash unseal w data req e w2 :
  hash ∉ lockMap w →
  stored hash w data req →
  Req.Verify req auth (after_read ("requests/" +:+ hash) (claimed hash w)) = (Some e, w2) →
  Get auth hash w = ((None, Some e), released hash w2)
  ∧ Approve auth hash unseal w = (Some e, released hash w2)
  ∧ Reject auth hash w =
      (fst (Req.Reject req auth hash (after_read ("requests/" +:+ hash) (claimed hash w))),
       released hash
         (snd (Req.Reject req auth hash (after_read ("requests/" +:+ hash) (claimed hash w)))))
  ∧ (Reject_revalidates (RQ := RQ) → Reject auth hash w = (Some e, released hash w2)).
Proof.
  intros Hfree Hst Hver. pose proof (load_stored _ _ _ _ Hst) as Hload.
  split; [|split; [|split]].
  - rewrite Get_free, defer_Delete_result by done. unfold bind.
    rewrite Hload. by rewrite Hver.
  - rewrite Approve_free, defer_Delete_result by done. unfold bind.
    rewrite Hload. by rewrite Hver.
  - rewrite Reject_free, defer_Delete_result by done. unfold bind.
    by rewrite Hload.
  - intros Hcontract. rewrite Reject_free, defer_Delete_result by done. unfold bind.
    rewrite Hload. by rewrite (Hcontract _ _ _ _ _ _ Hver).
Qed.

(** C2. [Add] accepts the fields and returns an identifier; [Get] with
    that identifier then returns a request whose recomputed fingerprint is
    the identifier.  What is asked of the collaborators: [Create] returns
    the fingerprint of the request it builds, whose "Type" is the policy
    one; [mapstructure.Decode] undoes [structs.Map]; the write succeeds and
    the read returns what was written; the request is valid for the
    caller. *)
Theorem Add_then_Get auth raw w req hash w1 :
  selects_policy raw →
  Req.Create auth raw w = ((req, (hash, None)), w1) →
  fingerprint req = Some hash →
  selects_policy (structs_Map req) →
  mapstructure_Decode (structs_Map req) = inl req →
  hash ∉ lockMap w1 →
  fst (vault_WriteToCubbyhole ("requests/" +:+ hash) (structs_Map req) (backend w1)) = None →
  fst (vault_ReadFromCubbyhole ("requests/" +:+ hash) (backend (snd (Add auth raw w))))
    = (Some (structs_Map req), None) →
  fst (Req.Verify req auth
         (after_read ("requests/" +:+ hash) (claimed hash (snd (Add auth raw w))))) = None →
  fst (Add auth raw w) = (hash, None)
  ∧ ∃ req', fst (Get auth hash (snd (Add auth raw w))) = (Some req', None)
            ∧ fingerprint req' = Some hash.
Proof.
  intros Hp Hc Hfp Hpm Hdec Hfree Hwrite Hread Hver.
  assert (HAdd : fst (Add auth raw w) = (hash, None)
                 ∧ lockMap (snd (Add auth raw w)) = lockMap w1).
  { rewrite Add_policy by done. rewrite Hc. simpl.
    rewrite bool_decide_eq_false_2 by done. rewrite defer_Delete_result.
    unfold bind, WriteToCubbyhole, call, ret, released, claimed, set_lockMap. simpl.
    destruct (vault_WriteToCubbyhole _ _ _) as [err v]. simpl in *. subst.
    split; [done|]. by apply claim_release. }
  destruct HAdd as [HAdd Hlock]. split; [done|]. exists req. split; [|done].
  set (wA := snd (Add auth raw w)) in *.
  assert (Hfree' : hash ∉ lockMap wA) by (by rewrite Hlock).
  assert (Hst : stored hash wA (structs_Map req) req) by done.
  rewrite Get_free, defer_Delete_result by done. unfold bind.
  rewrite (load_stored _ _ _ _ Hst).
  destruct (Req.Verify req auth _) as [err w4]. simpl in *. by subst.
Qed.

End RequestFacts.

(** ** The in-memory instance at work *)

Ltac run := vm_compute; reflexivity.
Ltac decided :=
  first [ apply (bool_decide_eq_true_1 _) | apply (bool_decide_eq_false_1 _) ];
  vm_compute; reflexivity.

Lemma raw0_selects_policy : selects_policy raw0.
Proof. split; [vm_compute; discriminate | run]. Qed.

(** alice holds the lock on the stored request: everyone is turned away. *)
Lemma busy_fingerprint_conflict_witness :
  Get "alice" hash0 world_busy = ((None, Some errConflict), world_busy)
  ∧ Approve "alice" hash0 "" world_busy = (Some errConflict, world_busy)
  ∧ Reject "alice" hash0 world_busy = (Some errConflict, world_busy)
  ∧ Add "alice" raw0 world_busy = (("", Some errConflict), world_busy).
Proof.
  destruct (busy_fingerprint_conflict "alice" raw0 hash0 "" world_busy)
    as (HG & HA & HR & HAdd); [decided|].
  split; [exact HG|]. split; [exact HA|]. split; [exact HR|].
  apply (HAdd req0 world_busy); [exact raw0_selects_policy | run | decided].
Defined.

(** The lock is free again after each of the four operations on the
    stored request. *)
Lemma claimed_fingerprint_released_witness :
  (hash0 ∉ lockMap (snd (Get "alice" hash0 world1)))
  ∧ (hash0 ∉ lockMap (snd (Approve "alice" hash0 "" world1)))
  ∧ (hash0 ∉ lockMap (snd (Reject "alice" hash0 world1)))
  ∧ (hash0 ∉ lockMap (snd (Add "alice" raw0 world1))).
Proof.
  destruct (claimed_fingerprint_released "alice" raw0 hash0 "" world1)
    as (HG & HA & HR & HAdd); [decided|].
  split; [exact HG|]. split; [exact HA|]. split; [exact HR|].
  apply (HAdd req0 world1); [exact raw0_selects_policy | run | decided].
Defined.

(** A sealed vault: alice gets the fingerprint and the error. *)
Lemma Add_returns_hash_with_write_error_witness :
  fst (Add "alice" raw0 world_sealed) = (hash0, Some (errors_New "Vault is sealed"))
  ∧ hash0 ≠ "".
Proof.
  destruct (Add_returns_hash_with_write_error "alice" raw0 world_sealed req0 hash0
              world_sealed (errors_New "Vault is sealed") (backend world_sealed))
    as [HAdd Hne]; [exact raw0_selects_policy | run | run | decided | run |].
  split; [|exact Hne]. rewrite HAdd. reflexivity.
Defined.

(** The record whose "Proposed" field was overwritten. *)
Lemma tampered_record_refused_witness :
  ∃ e, Get "alice" hash0 world_tampered
       = ((None, Some e), after_read ("requests/" +:+ hash0) world_tampered)
     ∧ Approve "alice" hash0 "" world_tampered
       = (Some e, after_read ("requests/" +:+ hash0) world_tampered)
     ∧ Reject "alice" hash0 world_tampered
       = (Some e, after_read ("requests/" +:+ hash0) world_tampered)
     ∧ e = errHashes.
Proof.
  destruct (tampered_record_refused "alice" hash0 "" world_tampered
              (<["Proposed" := VString "path * { sudo }"]> (policy_Map req0)))
    as (e & HG & HA & HR & He & _ & _); [decided | run | |].
  - intros req Hdec. vm_compute in Hdec. injection Hdec as <-.
    intros Hfp. vm_compute in Hfp. discriminate Hfp.
  - exists e. split; [exact HG|]. split; [exact HA|]. split; [exact HR|].
    apply He; [split; [vm_compute; discriminate | run]|].
    eexists. vm_compute. reflexivity.
Defined.

(** C1, as stated, fails: the "Type" field of the stored record is
    overwritten with "plan".  The record still decodes, its recomputed
    fingerprint is no longer the key, and yet the three operations return
    "Invalid request type: plan", not "Hashes do not match". *)
Lemma retyped_record_is_no_integrity_error :
  let data := <["Type" := VString "plan"]> (policy_Map req0) in
  let retyped := mkPolicyRequest "plan" "readonly" "path * { read }" "path * { deny }" 0 2 in
  cubbyhole (backend world_retyped) !! ("requests/" +:+ hash0) = Some data
  ∧ mapstructure_Decode data = inl retyped
  ∧ fingerprint retyped ≠ Some hash0
  ∧ fst (Get "alice" hash0 world_retyped)
    = (None, Some (errors_New "Invalid request type: plan"))
  ∧ fst (Approve "alice" hash0 "" world_retyped)
    = Some (errors_New "Invalid request type: plan")
  ∧ fst (Reject "alice" hash0 world_retyped)
    = Some (errors_New "Invalid request type: plan")
  ∧ errors_New "Invalid request type: plan" ≠ errHashes.
Proof.
  repeat split; try run; vm_compute; discriminate.
Qed.

(** The variant of the examples keeps to the contract. *)
Lemma policy_Reject_revalidates : Reject_revalidates (RQ := policy_request).
Proof.
  intros req auth hash w e w2 Hver. cbn [Req.Verify Req.Reject policy_request] in *.
  unfold policy_Reject, bind. by rewrite Hver.
Qed.

(** The policy was rewritten after the request was made: the three
    operations return the error of the check, and the request stays in the
    store. *)
Lemma stale_request_refused_witness :
  fst (Get "alice" hash0 world_stale) = (None, Some errStale)
  ∧ fst (Approve "alice" hash0 "" world_stale) = Some errStale
  ∧ fst (Reject "alice" hash0 world_stale) = Some errStale
  ∧ cubbyhole (backend (snd (Reject "alice" hash0 world_stale))) !! ("requests/" +:+ hash0)
    = Some (policy_Map req0).
Proof.
  destruct (stale_request_refused "alice" hash0 "" world_stale (policy_Map req0) req0 errStale
              (after_read ("requests/" +:+ hash0) (claimed hash0 world_stale)))
    as (HG & HA & _ & HR); [decided | | run |].
  - split; [run|]. split; [split; [vm_compute; discriminate | run]|]. split; run.
  - rewrite HG, HA, (HR policy_Reject_revalidates). repeat split; run.
Defined.

(** alice adds the request and fetches it. *)
Lemma Add_then_Get_witness :
  fst (Add "alice" raw0 world0) = (hash0, None)
  ∧ ∃ req', fst (Get "alice" hash0 (snd (Add "alice" raw0 world0))) = (Some req', None)
            ∧ fingerprint req' = Some hash0.
Proof.
  apply (Add_then_Get "alice" raw0 world0 req0 hash0 world0);
    [exact raw0_selects_policy | run | run | | run | decided | run | run | run].
  split; [vm_compute; discriminate | run].
Defined.

(** ** Root-token reconstruction *)

Lemma append_nonempty_r (s t : string) : t ≠ "" → s +:+ t ≠ "".
Proof. destruct s; simpl; [done|]. intros _. discriminate. Qed.

Lemma uuid_text_nonempty buf : uuid_text buf ≠ "".
Proof. unfold uuid_text. apply append_nonempty_r. simpl. discriminate. Qed.

Section RootFacts.
Context {V : Type} {VV : Vault V} {B64 : Base64}.
Implicit Types (w : World V) (status : RootStatus) (unsealKeys : list string).

(** One share goes through. *)
Lemma submitShares_cons_ok s rest status w status' v :
  vault_GenerateRootUpdate s (Nonce status) (backend w) = ((status', None), v) →
  submitShares (s :: rest) status w =
    submitShares rest status'
      (mkWorld (lockMap w) (lockRoot w) v (calls w ++ [CallRootUpdate s (Nonce status)])).
Proof.
  intros Hupd. simpl. unfold bind at 1, GenerateRootUpdate, call. by rewrite Hupd.
Qed.

(** One share is refused: cancel, and out. *)
Lemma submitShares_cons_fail s rest status w status' e v cerr v' :
  vault_GenerateRootUpdate s (Nonce status) (backend w) = ((status', Some e), v) →
  vault_GenerateRootCancel v = (cerr, v') →
  submitShares (s :: rest) status w =
    (inr (errors_New (abortMessage e cerr)),
     mkWorld (lockMap w) (lockRoot w) v'
       (calls w ++ [CallRootUpdate s (Nonce status); CallRootCancel])).
Proof.
  intros Hupd Hcancel. simpl.
  unfold abortRootGeneration, GenerateRootUpdate, GenerateRootCancel, bind, call, ret.
  rewrite Hupd. cbn [backend]. rewrite Hcancel. cbn [lockMap lockRoot calls].
  by rewrite <- (app_assoc (calls w)).
Qed.

(** Shares that all go through: one update each, in order, and nothing
    else. *)
Lemma submitShares_ok unsealKeys : ∀ status w status' w',
  submitShares unsealKeys status w = (inl status', w') →
  ∃ nonces,
    length nonces = length unsealKeys
    ∧ calls w' = calls w ++ zip_with CallRootUpdate unsealKeys nonces
    ∧ lockMap w' = lockMap w ∧ lockRoot w' = lockRoot w.
Proof.
  induction unsealKeys as [|s rest IH]; intros status w status' w' Hrun.
  - injection Hrun as <- <-. exists []. by rewrite app_nil_r.
  - destruct (vault_GenerateRootUpdate s (Nonce status) (backend w)) as [[st [e|]] v] eqn:Hupd.
    + destruct (vault_GenerateRootCancel v) as [cerr v'] eqn:Hcancel.
      rewrite (submitShares_cons_fail _ _ _ _ _ _ _ _ _ Hupd Hcancel) in Hrun. done.
    + rewrite (submitShares_cons_ok _ _ _ _ _ _ Hupd) in Hrun.
      destruct (IH _ _ _ _ Hrun) as (nonces & Hlen & Hcalls & Hlock & Hroot).
      exists (Nonce status :: nonces). simpl in *.
      rewrite Hcalls, <- app_assoc. by rewrite Hlen.
Qed.

Lemma submitShares_app pre rest : ∀ status w status1 w1,
  submitShares pre status w = (inl status1, w1) →
  submitShares (pre ++ rest) status w = submitShares rest status1 w1.
Proof.
  induction pre as [|s pre IH]; intros status w status1 w1 Hrun.
  - by injection Hrun as <- <-.
  - destruct (vault_GenerateRootUpdate s (Nonce status) (backend w)) as [[st [e|]] v] eqn:Hupd.
    + destruct (vault_GenerateRootCancel v) as [cerr v'] eqn:Hcancel.
      rewrite (submitShares_cons_fail _ _ _ _ _ _ _ _ _ Hupd Hcancel) in Hrun. done.
    + rewrite (submitShares_cons_ok _ _ _ _ _ _ Hupd) in Hrun.
      rewrite <- app_comm_cons, (submitShares_cons_ok _ _ _ _ _ _ Hupd). by apply IH.
Qed.

(** [generateRootToken] up to the loop, when the mutex is free and the
    backend starts a generation. *)
Lemma generateRootToken_started unsealKeys w key v0 status0 v1 :
  lockRoot w = false →
  securecookie_GenerateRandomKey 16 (backend w) = (key, v0) →
  vault_GenerateRootInit (base64_EncodeToString key) v0 = ((status0, None), v1) →
  generateRootToken unsealKeys w =
    Some (let '(r, w2) := collectShares unsealKeys status0
                            (initiated w (base64_EncodeToString key) v1) in
          (match r with
           | inr e => ("", Some e)
           | inl status => decodeRootToken status (base64_EncodeToString key)
           end, set_lockRoot false w2)).
Proof.
  intros Hfree Hkey Hinit. unfold generateRootToken. rewrite Hfree. f_equal.
  unfold defer, generateRootToken_locked, bind, env, GenerateRootInit, call, ret. simpl.
  rewrite Hkey. simpl. rewrite Hinit. simpl. unfold initiated.
  destruct (collectShares _ _ _) as [[status|e] w2]; done.
Qed.

(** The same when the backend did not hand over a token at once. *)
Lemma generateRootToken_initiated unsealKeys w key v0 status0 v1 :
  lockRoot w = false →
  securecookie_GenerateRandomKey 16 (backend w) = (key, v0) →
  vault_GenerateRootInit (base64_EncodeToString key) v0 = ((status0, None), v1) →
  EncodedRootToken status0 = "" →
  generateRootToken unsealKeys w =
    Some (let '(r, w2) := submitShares unsealKeys status0
                            (initiated w (base64_EncodeToString key) v1) in
          (match r with
           | inr e => ("", Some e)
           | inl status => decodeRootToken status (base64_EncodeToString key)
           end, set_lockRoot false w2)).
Proof.
  intros Hfree Hkey Hinit Hempty.
  rewrite (generateRootToken_started _ _ _ _ _ _ Hfree Hkey Hinit).
  unfold collectShares. by rewrite decide_True.
Qed.

End RootFacts.

Section RootClaims.
Context {V : Type} {VV : Vault V} {B64 : Base64}.
Implicit Types (w : World V) (status : RootStatus) (unsealKeys : list string).

(** C6. The shares [pre] go through and the backend refuses the share [s]:
    [generateRootToken] returns the message that names the error of that
    update, with the error of a failed cancel appended behind it; the log
    shows one update for each share of [pre], the update of [s], then the
    cancel, and no update for any share of [post]. *)
Theorem failed_share_aborts pre s post w key v0 status0 v1 status1 w2 st e v3 cerr v4 :
  lockRoot w = false →
  securecookie_GenerateRandomKey 16 (backend w) = (key, v0) →
  vault_GenerateRootInit (base64_EncodeToString key) v0 = ((status0, None), v1) →
  EncodedRootToken status0 = "" →
  submitShares pre status0 (initiated w (base64_EncodeToString key) v1) = (inl status1, w2) →
  vault_GenerateRootUpdate s (Nonce status1) (backend w2) = ((st, Some e), v3) →
  vault_GenerateRootCancel v3 = (cerr, v4) →
  ∃ nonces,
    length nonces = length pre
    ∧ generateRootToken (pre ++ s :: post) w =
        Some (("", Some (errors_New (abortMessage e cerr))),
              mkWorld (lockMap w) false v4
                (calls w ++ [CallRootInit (base64_EncodeToString key)]
                 ++ zip_with CallRootUpdate pre nonces
                 ++ [CallRootUpdate s (Nonce status1); CallRootCancel]))
    ∧ abortMessage e None = "Could not generate root token: " +:+ Error e
    ∧ (∀ c, abortMessage e (Some c) =
            abortMessage e None +:+ ". Attempted to cancel root generation, but: " +:+ Error c).
Proof.
  intros Hfree Hkey Hinit Hempty Hpre Hupd Hcancel.
  destruct (submitShares_ok _ _ _ _ _ Hpre) as (nonces & Hlen & Hcalls & Hlock & Hroot).
  exists nonces. split; [done|]. split; [|done].
  rewrite (generateRootToken_initiated _ _ _ _ _ _ Hfree Hkey Hinit Hempty).
  rewrite (submitShares_app _ _ _ _ _ _ Hpre).
  rewrite (submitShares_cons_fail _ _ _ _ _ _ _ _ _ Hupd Hcancel).
  unfold set_lockRoot. simpl in *. rewrite Hcalls, Hlock. by rewrite <- !app_assoc.
Qed.

(** C7. Every share goes through and the status after the last one holds
    no encoded token: [generateRootToken] returns "Could not generate root
    token. Was vault re-keyed just now?", which is none of the messages of
    a refused share. *)
Theorem quorum_not_reached unsealKeys w key v0 status0 v1 status w2 :
  lockRoot w = false →
  securecookie_GenerateRandomKey 16 (backend w) = (key, v0) →
  vault_GenerateRootInit (base64_EncodeToString key) v0 = ((status0, None), v1) →
  EncodedRootToken status0 = "" →
  submitShares unsealKeys status0 (initiated w (base64_EncodeToString key) v1)
    = (inl status, w2) →
  EncodedRootToken status = "" →
  generateRootToken unsealKeys w = Some (("", Some errQuorum), set_lockRoot false w2)
  ∧ ∀ e cerr, errQuorum ≠ errors_New (abortMessage e cerr).
Proof.
  intros Hfree Hkey Hinit Hempty Hrun Hnone. split.
  - rewrite (generateRootToken_initiated _ _ _ _ _ _ Hfree Hkey Hinit Hempty), Hrun.
    unfold decodeRootToken. by rewrite decide_True.
  - intros e [c|]; unfold errQuorum, abortMessage, errors_New; simpl; discriminate.
Qed.

(** C8. The shares are through, or were not needed, and the backend has
    produced an encoded token.  When both the token and the pad decode to
    sixteen bytes,
    [generateRootToken] returns the UUID text of their byte-wise XOR; when
    the XOR or the formatting fails, it returns "Could not decode root
    token. Please search and revoke"; and it never returns an empty token
    without an error. *)
Theorem root_token_decoded unsealKeys w key v0 status0 v1 status w2 :
  lockRoot w = false →
  securecookie_GenerateRandomKey 16 (backend w) = (key, v0) →
  vault_GenerateRootInit (base64_EncodeToString key) v0 = ((status0, None), v1) →
  collectShares unsealKeys status0 (initiated w (base64_EncodeToString key) v1)
    = (inl status, w2) →
  EncodedRootToken status ≠ "" →
  ∃ r,
    generateRootToken unsealKeys w = Some (r, set_lockRoot false w2)
    ∧ (∀ token pad,
         base64_DecodeString (EncodedRootToken status) = inl token →
         base64_DecodeString (base64_EncodeToString key) = inl pad →
         length token = 16%nat → length pad = 16%nat →
         r = (uuid_text (xor_loop token pad), None))
    ∧ (∀ tokenBytes,
         xor_XORBase64 (EncodedRootToken status) (base64_EncodeToString key) = inl tokenBytes →
         r = match uuid_FormatUUID tokenBytes with
             | inl text => (text, None)
             | inr _ => ("", Some errDecode)
             end)
    ∧ (∀ err,
         xor_XORBase64 (EncodedRootToken status) (base64_EncodeToString key) = inr err →
         r = ("", Some errDecode))
    ∧ (snd r = None → fst r ≠ "").
Proof.
  intros Hfree Hkey Hinit Hrun Hsome.
  exists (decodeRootToken status (base64_EncodeToString key)).
  split; [|split; [|split; [|split]]].
  - by rewrite (generateRootToken_started _ _ _ _ _ _ Hfree Hkey Hinit), Hrun.
  - intros token pad Htoken Hpad Hlt Hlp.
    unfold decodeRootToken, xor_XORBase64, xor_XORBytes, uuid_FormatUUID.
    rewrite decide_False by done. rewrite Htoken, Hpad.
    rewrite decide_False by (intros ->; done).
    rewrite decide_False by (intros ->; done).
    rewrite decide_False by (intros Hne; apply Hne; congruence).
    assert (Hlen : length (xor_loop token pad) = 16%nat).
    { clear -Hlt Hlp. do 17 (destruct token as [|? token]; try done).
      do 17 (destruct pad as [|? pad]; try done). }
    by rewrite decide_False by (intros Hne; by apply Hne).
  - intros tokenBytes Hxor. unfold decodeRootToken.
    rewrite decide_False by done. rewrite Hxor. by destruct (uuid_FormatUUID tokenBytes).
  - intros err Hxor. unfold decodeRootToken. rewrite decide_False by done. by rewrite Hxor.
  - unfold decodeRootToken. rewrite decide_False by done.
    destruct (xor_XORBase64 _ _) as [tokenBytes|]; [|done].
    unfold uuid_FormatUUID. destruct (decide _); [done|]. intros _. apply uuid_text_nonempty.
Qed.

End RootClaims.

(** A refused share and a refused cancel: "bad" comes second of three. *)
Lemma failed_share_aborts_witness :
  ∃ nonce,
    option_map (λ r, (fst r, calls (snd r)))
      (generateRootToken ["key-a"; "bad"; "key-b"] world_nocancel)
    = Some (("", Some (errors_New
               ("Could not generate root token: invalid unseal key"
                +:+ ". Attempted to cancel root generation, but: Vault is sealed"))),
            [CallRootInit otp0; CallRootUpdate "key-a" nonce;
             CallRootUpdate "bad" "nonce-1"; CallRootCancel]).
Proof.
  edestruct (failed_share_aborts ["key-a"] "bad" ["key-b"] world_nocancel)
    as (nonces & Hlen & Hrun & _);
    [reflexivity | reflexivity | reflexivity | reflexivity | reflexivity
    | reflexivity | reflexivity |].
  destruct nonces as [|n [|? ?]]; try discriminate Hlen.
  exists n. simpl app in Hrun. rewrite Hrun. reflexivity.
Defined.

(** One share of the two that are needed. *)
Lemma quorum_not_reached_witness :
  option_map fst (generateRootToken ["key-a"] world0) = Some ("", Some errQuorum).
Proof.
  edestruct (quorum_not_reached ["key-a"] world0) as [Hrun _];
    [reflexivity | reflexivity | reflexivity | reflexivity | reflexivity | reflexivity |].
  rewrite Hrun. reflexivity.
Defined.

(** Two valid shares: the root token comes out from under the pad. *)
Lemma root_token_decoded_witness :
  option_map fst (generateRootToken ["key-a"; "key-c"] world0)
  = Some ("deadbeef-0011-2233-4455-66778899aabb", None).
Proof.
  edestruct (root_token_decoded ["key-a"; "key-c"] world0) as (r & Hrun & Hxor & _);
    [reflexivity | reflexivity | reflexivity | reflexivity
    | vm_compute; discriminate |].
  rewrite Hrun. simpl. f_equal.
  apply (Hxor (xor_loop (root_token vault0) (entropy vault0)) (entropy vault0)); run.
Defined.

(** ** The share bundle *)

Lemma utf8_first_range b sz lo hi :
  utf8_first b = Some (sz, (lo, hi)) → (sz = 2 ∨ sz = 3 ∨ sz = 4)%nat ∧ 128 ≤ lo.
Proof.
  unfold utf8_first. repeat case_match; intros [= <- <- <-]; split; auto; lia.
Qed.

Lemma outside_ascii lo hi a : 128 ≤ lo → a < 128 → outside lo hi a = true.
Proof.
  intros Hlo Ha. unfold outside. apply orb_true_iff. left. apply N.ltb_lt. lia.
Qed.

Lemma append_nil_l (s : string) : "" +:+ s = s.
Proof. reflexivity. Qed.
Lemma append_cons c (s t : string) : String c s +:+ t = String c (s +:+ t).
Proof. reflexivity. Qed.

Lemma decode_app_ascii c0 t0 a rest :
  N_of_ascii a < 128 →
  utf8_DecodeRuneInString (String c0 (t0 +:+ String a rest))
  = utf8_DecodeRuneInString (String c0 t0).
Proof.
  intros Ha. unfold utf8_DecodeRuneInString.
  destruct (N_of_ascii c0 <? 128); [done|].
  destruct (utf8_first (N_of_ascii c0)) as [[sz [lo hi]]|] eqn:Hf; [|done].
  apply utf8_first_range in Hf as [Hsz Hlo].
  pose proof (outside_ascii lo hi _ Hlo Ha) as Ho1.
  pose proof (outside_ascii 128 191 _ (N.le_refl _) Ha) as Ho2.
  destruct Hsz as [->|[->| ->]];
    destruct t0 as [|c1 [|c2 [|c3 t3]]];
    rewrite ?append_cons, ?append_nil_l; cbn [String.length Nat.ltb Nat.leb];
    rewrite ?Ho1, ?Ho2;
    repeat (match goal with
            | |- context [if ?b then _ else _] => destruct b eqn:?
            end; rewrite ?Ho1, ?Ho2; try done); done.
Qed.

Lemma decode_width c0 t0 :
  (1 ≤ snd (utf8_DecodeRuneInString (String c0 t0)) ≤ S (String.length t0))%nat.
Proof.
  unfold utf8_DecodeRuneInString.
  repeat (match goal with
          | |- context [if ?b then _ else _] => destruct b
          | |- context [match ?x with _ => _ end] => destruct x
          end; cbn [snd String.length]; try lia).
Qed.

Lemma decode_ascii a rest :
  N_of_ascii a < 128 → utf8_DecodeRuneInString (String a rest) = (N_of_ascii a, 1%nat).
Proof.
  intros Ha. unfold utf8_DecodeRuneInString.
  by rewrite (proj2 (N.ltb_lt _ _) Ha).
Qed.

Lemma string_take_app n (s t : string) :
  (n ≤ String.length s)%nat → string_take n (s +:+ t) = string_take n s.
Proof.
  revert s. induction n as [|n IH]; intros [|c s] Hn; simpl in *; try lia.
  - by destruct t.
  - done.
  - by rewrite IH by lia.
Qed.

Lemma string_drop_app n (s t : string) :
  (n ≤ String.length s)%nat → string_drop n (s +:+ t) = string_drop n s +:+ t.
Proof.
  revert s. induction n as [|n IH]; intros [|c s] Hn; simpl in *; try lia; try done.
  by rewrite IH by lia.
Qed.

Lemma string_drop_length n (s : string) :
  String.length (string_drop n s) = (String.length s - n)%nat.
Proof. revert s. induction n as [|n IH]; intros [|c s]; simpl; try done. Qed.

Lemma string_take_drop n (s : string) : string_take n s +:+ string_drop n s = s.
Proof.
  revert s. induction n as [|n IH]; intros [|c s]; try done.
  cbn [string_take string_drop]. rewrite append_cons. f_equal. apply IH.
Qed.

Lemma append_length (s t : string) :
  String.length (s +:+ t) = (String.length s + String.length t)%nat.
Proof. induction s as [|c s IH]; [done|]. rewrite append_cons. cbn [String.length]. by rewrite IH. Qed.

(** Fuel beyond the length of the string changes nothing. *)
Lemma runes_upto_enough fuel : ∀ s,
  (String.length s ≤ fuel)%nat → runes_upto fuel s = runes s.
Proof.
  unfold runes. induction fuel as [fuel IH] using lt_wf_ind. intros s Hlen.
  destruct s as [|c0 t0]; [by destruct fuel|].
  destruct fuel as [|fuel]; [simpl in Hlen; lia|].
  cbn [runes_upto String.length].
  pose proof (decode_width c0 t0) as Hw.
  destruct (utf8_DecodeRuneInString (String c0 t0)) as [r w]. cbn [snd] in Hw.
  f_equal.
  assert (Hd : (String.length (string_drop w (String c0 t0)) ≤ String.length t0)%nat).
  { rewrite string_drop_length. simpl. lia. }
  rewrite (IH fuel) by (simpl in Hlen; lia).
  rewrite (IH (String.length t0)) by (simpl in Hlen; lia). done.
Qed.

Lemma runes_cons c0 t0 :
  runes (String c0 t0) =
    (fst (utf8_DecodeRuneInString (String c0 t0)),
     string_take (snd (utf8_DecodeRuneInString (String c0 t0))) (String c0 t0))
    :: runes (string_drop (snd (utf8_DecodeRuneInString (String c0 t0))) (String c0 t0)).
Proof.
  unfold runes at 1. cbn [runes_upto String.length].
  pose proof (decode_width c0 t0) as Hw.
  destruct (utf8_DecodeRuneInString (String c0 t0)) as [r w]. cbn [fst snd] in *.
  f_equal. apply runes_upto_enough. rewrite string_drop_length. simpl. lia.
Qed.

(** An ASCII byte behind [s] is a rune of its own: the runes of [s] are
    decoded as if [s] stood alone. *)
Lemma runes_app_ascii a rest : ∀ s,
  N_of_ascii a < 128 →
  runes (s +:+ String a rest) = runes s ++ (N_of_ascii a, String a "") :: runes rest.
Proof.
  intros s Ha. remember (String.length s) as n eqn:Hn. revert s Hn.
  induction n as [n IH] using lt_wf_ind. intros s ->.
  destruct s as [|c0 t0].
  - rewrite append_nil_l, runes_cons, decode_ascii by done. simpl. by destruct rest.
  - rewrite append_cons, !runes_cons, decode_app_ascii by done.
    pose proof (decode_width c0 t0) as Hw.
    destruct (utf8_DecodeRuneInString (String c0 t0)) as [r w]. cbn [fst snd] in *.
    rewrite <- append_cons.
    rewrite string_take_app, string_drop_app by (simpl; lia).
    rewrite <- app_comm_cons. f_equal.
    apply (IH (String.length (string_drop w (String c0 t0)))); [|done].
    rewrite string_drop_length. simpl. lia.
Qed.


Lemma append_nil_r (s : string) : s +:+ "" = s.
Proof. induction s as [|c s IH]; [done|]. rewrite append_cons. by rewrite IH. Qed.

Lemma append_assoc (s t u : string) : (s +:+ t) +:+ u = s +:+ (t +:+ u).
Proof. induction s as [|c s IH]; [done|]. rewrite !append_cons. by rewrite IH. Qed.

Lemma runes_bytes : ∀ s, rune_bytes (runes s) = s.
Proof.
  intros s. remember (String.length s) as n eqn:Hn. revert s Hn.
  induction n as [n IH] using lt_wf_ind. intros [|c0 t0] ->; [done|].
  rewrite runes_cons. pose proof (decode_width c0 t0) as Hw.
  destruct (utf8_DecodeRuneInString (String c0 t0)) as [r w]. cbn [fst snd] in *.
  cbn [rune_bytes foldr snd]. fold (rune_bytes (runes (string_drop w (String c0 t0)))).
  rewrite (IH (String.length (string_drop w (String c0 t0)))); [|rewrite string_drop_length; simpl; lia|done].
  apply string_take_drop.
Qed.

Lemma runes_nonempty s : s ≠ "" → runes s ≠ [].
Proof. destruct s; [done|]. intros _. by rewrite runes_cons. Qed.

(** Runes that are no separators extend the open span, or open one. *)
Lemma fields_loop_span f us : ∀ rest cur,
  us ≠ [] →
  existsb (λ u, f (fst u)) us = false →
  fields_loop f (us ++ rest) cur
  = fields_loop f rest (Some (default "" cur +:+ rune_bytes us)).
Proof.
  induction us as [|[r b] us IH]; intros rest cur Hne Hf; [done|].
  cbn [existsb fst] in Hf. apply orb_false_iff in Hf as [Hr Hus].
  rewrite <- app_comm_cons. cbn [fields_loop]. rewrite Hr.
  destruct us as [|u us].
  - cbn [rune_bytes foldr snd app]. by rewrite append_nil_r.
  - rewrite IH by done. unfold default at 1. cbn [from_option id].
    cbn [rune_bytes foldr snd]. by rewrite append_assoc.
Qed.

Lemma fields_loop_token t rest cur :
  t ≠ "" → has_space t = false →
  fields_loop unicode_IsSpace (runes t ++ rest) cur
  = fields_loop unicode_IsSpace rest (Some (default "" cur +:+ t)).
Proof.
  intros Hne Hsp. rewrite fields_loop_span by (by apply runes_nonempty || done).
  by rewrite runes_bytes.
Qed.

Lemma Join_cons (e e' : string) (es : list string) (sep : string) :
  strings_Join (e :: e' :: es) sep = e +:+ sep +:+ strings_Join (e' :: es) sep.
Proof. reflexivity. Qed.

Lemma Join_cons_nonempty (e : string) (es : list string) (sep : string) :
  es ≠ [] → strings_Join (e :: es) sep = e +:+ sep +:+ strings_Join es sep.
Proof. by destruct es. Qed.

(** [strings.Fields] on the tokens and the closing bracket of
    [fmt.Sprint], joined again: the spaces have become semicolons. *)
Lemma Join_Fields_body L : ∀ cur,
  L ≠ [] → Forall solid L →
  strings_Join (fields_loop unicode_IsSpace (runes (strings_Join L " " +:+ "]")) cur) ";"
  = default "" cur +:+ strings_Join L ";" +:+ "]".
Proof.
  induction L as [|t L IH]; intros cur Hne HL; [done|].
  apply Forall_cons in HL as [[Ht Hsp] HL].
  destruct L as [|t' L'].
  - cbn [strings_Join].
    rewrite (runes_app_ascii "]" "" t) by done.
    rewrite fields_loop_token by done. cbn. by rewrite append_assoc.
  - rewrite !Join_cons, !append_assoc.
    change (" " +:+ strings_Join (t' :: L') " " +:+ "]")
      with (String " " (strings_Join (t' :: L') " " +:+ "]")).
    rewrite (runes_app_ascii " " _ t) by done.
    rewrite fields_loop_token by done.
    cbn [fields_loop N_of_ascii]. change (unicode_IsSpace _) with true. cbn iota.
    specialize (IH None ltac:(done) HL).
    rewrite Join_cons_nonempty.
    + rewrite IH. cbn [default from_option]. by rewrite !append_assoc.
    + intros Hnil. rewrite Hnil in IH. cbn [strings_Join] in IH.
      symmetry in IH. revert IH. apply append_nonempty_r, append_nonempty_r. done.
Qed.

Lemma Join_Fields_Sprint L :
  L ≠ [] → Forall solid L →
  strings_Join (strings_Fields (fmt_Sprint L)) ";" = "[" +:+ strings_Join L ";" +:+ "]".
Proof.
  intros Hne HL. unfold strings_Fields, strings_FieldsFunc, fmt_Sprint.
  change ("[" +:+ strings_Join L " " +:+ "]") with (String "[" (strings_Join L " " +:+ "]")).
  rewrite runes_cons, decode_ascii by done. cbn [fst snd string_take string_drop fields_loop].
  change (unicode_IsSpace _) with false. cbn iota.
  by rewrite Join_Fields_body.
Qed.

Lemma in_cutset_cons cutset c0 c :
  in_cutset (String c0 cutset) c = bool_decide (c = c0) || in_cutset cutset c.
Proof.
  unfold in_cutset. cbn [list_ascii_of_string].
  apply eq_true_iff_eq. rewrite orb_true_iff, !bool_decide_eq_true. apply elem_of_cons.
Qed.

Lemma in_cutset_nil c : in_cutset "" c = false.
Proof. unfold in_cutset. apply bool_decide_eq_false. cbn. apply not_elem_of_nil. Qed.

Lemma avoids_cons cutset c s :
  avoids cutset (String c s) ↔ in_cutset cutset c = false ∧ avoids cutset s.
Proof.
  unfold avoids. cbn [list_ascii_of_string]. split.
  - intros H. split; [apply H; left|]. intros c' Hc'. apply H. by right.
  - intros [Hc Hs] c' [->|Hc']%elem_of_cons; auto.
Qed.

Lemma avoids_nil cutset : avoids cutset "".
Proof. intros c Hc. cbn in Hc. by apply elem_of_nil in Hc. Qed.

Lemma avoids_app cutset s t :
  avoids cutset s → avoids cutset t → avoids cutset (s +:+ t).
Proof.
  intros Hs Ht. induction s as [|c s IH]; [done|].
  rewrite append_cons. apply avoids_cons in Hs as [Hc Hs]. apply avoids_cons. auto.
Qed.

(** A token without "[" and without "]" avoids the cutset of [Trim]. *)
Lemma avoids_brackets t :
  in_cutset t "[" = false → in_cutset t "]" = false → avoids "[]" t.
Proof.
  induction t as [|c t IH]; intros Ho Hc; [apply avoids_nil|].
  rewrite in_cutset_cons in Ho, Hc.
  apply orb_false_iff in Ho as [Ho1 Ho2]. apply orb_false_iff in Hc as [Hc1 Hc2].
  apply avoids_cons. split; [|by apply IH].
  rewrite !in_cutset_cons, in_cutset_nil.
  apply bool_decide_eq_false in Ho1, Hc1.
  rewrite !bool_decide_eq_false_2 by congruence. done.
Qed.

Lemma avoids_Join cutset sep L :
  avoids cutset sep → Forall (avoids cutset) L → avoids cutset (strings_Join L sep).
Proof.
  intros Hsep. induction 1 as [|t L Ht HL IH]; [apply avoids_nil|].
  destruct L as [|t' L']; [done|].
  rewrite Join_cons. by repeat apply avoids_app.
Qed.

Lemma trimRight_closing X cutset c :
  avoids cutset X → in_cutset cutset c = true →
  trimRight (X +:+ String c "") cutset = X.
Proof.
  intros HX Hc. induction X as [|x X IH].
  - rewrite append_nil_l. cbn [trimRight]. by rewrite Hc.
  - apply avoids_cons in HX as [Hx HX]. rewrite append_cons. cbn [trimRight].
    rewrite IH by done. destruct X; [by rewrite Hx|done].
Qed.

Lemma trimLeft_avoids X cutset : avoids cutset X → trimLeft X cutset = X.
Proof.
  destruct X as [|x X]; [done|]. intros [Hx _]%avoids_cons. cbn [trimLeft]. by rewrite Hx.
Qed.

Lemma trimLeft_in c s cutset :
  in_cutset cutset c = true → trimLeft (String c s) cutset = trimLeft s cutset.
Proof. intros Hc. cbn [trimLeft]. by rewrite Hc. Qed.

Lemma Trim_brackets X :
  X ≠ "" → avoids "[]" X → strings_Trim ("[" +:+ X +:+ "]") "[]" = X.
Proof.
  intros Hne HX. unfold strings_Trim.
  change ("[" +:+ X +:+ "]") with (String "[" (X +:+ String "]" "")).
  cbn [trimRight]. rewrite trimRight_closing by done.
  destruct X as [|x X]; [done|].
  rewrite trimLeft_in by done. by apply trimLeft_avoids.
Qed.

Lemma Split_plain t : in_cutset t ";" = false → strings_Split t ";" = [t].
Proof.
  induction t as [|c t IH]; [done|]. rewrite in_cutset_cons.
  intros [Hc Ht]%orb_false_iff. apply bool_decide_eq_false in Hc.
  cbn [strings_Split]. rewrite decide_False by congruence. by rewrite IH.
Qed.

Lemma Split_token t rest :
  in_cutset t ";" = false →
  strings_Split (t +:+ String ";" rest) ";" = t :: strings_Split rest ";".
Proof.
  induction t as [|c t IH].
  - intros _. cbn [strings_Split String.append]. rewrite append_nil_l.
    cbn [strings_Split]. by rewrite decide_True.
  - rewrite in_cutset_cons. intros [Hc Ht]%orb_false_iff. apply bool_decide_eq_false in Hc.
    rewrite append_cons. cbn [strings_Split]. rewrite decide_False by congruence.
    by rewrite IH.
Qed.

Lemma Split_Join L :
  L ≠ [] → Forall (λ t, in_cutset t ";" = false) L →
  strings_Split (strings_Join L ";") ";" = L.
Proof.
  intros Hne HL. induction HL as [|t L Ht HL IH]; [done|].
  destruct L as [|t' L']; [by apply Split_plain|].
  rewrite Join_cons.
  change (";" +:+ strings_Join (t' :: L') ";") with (String ";" (strings_Join (t' :: L') ";")).
  rewrite Split_token by done. by rewrite IH.
Qed.

Lemma Join_nonempty L sep :
  L ≠ [] → Forall (λ t, t ≠ "") L → strings_Join L sep ≠ "".
Proof.
  intros Hne HL. destruct HL as [|t L Ht HL]; [done|].
  destruct L as [|t' L']; [done|]. rewrite Join_cons. by destruct t.
Qed.

Lemma plain_token_inv t :
  plain_token t = true →
  has_space t = false ∧ in_cutset t ";" = false
  ∧ in_cutset t "[" = false ∧ in_cutset t "]" = false.
Proof.
  unfold plain_token. rewrite !andb_true_iff, !negb_true_iff. tauto.
Qed.

(** What is written for such tokens is the tokens with a semicolon
    between them. *)
Lemma joinTokens_sound L :
  L ≠ [] → Forall sound_token L → joinTokens L = strings_Join L ";".
Proof.
  intros Hne HL. unfold joinTokens.
  rewrite Join_Fields_Sprint; [|done|].
  - apply Trim_brackets.
    + apply Join_nonempty; [done|]. eapply Forall_impl; [exact HL|]. by intros t [? _].
    + apply avoids_Join.
      * intros c Hc. cbn in Hc. apply list_elem_of_singleton in Hc as ->. done.
      * eapply Forall_impl; [exact HL|]. intros t [_ Hp].
        apply plain_token_inv in Hp as (_ & _ & Ho & Hc). by apply avoids_brackets.
  - eapply Forall_impl; [exact HL|]. intros t [Hne' Hp].
    apply plain_token_inv in Hp as (Hsp & _). by split.
Qed.

Lemma readTokens_bundle L :
  L ≠ [] → Forall sound_token L → readTokens (Some (bundle L)) = inl L.
Proof.
  intros Hne HL. unfold readTokens, bundle, string_field.
  rewrite lookup_singleton_eq, joinTokens_sound by done.
  rewrite decide_False.
  - f_equal. apply Split_Join; [done|]. eapply Forall_impl; [exact HL|].
    intros t [_ Hp]. by apply plain_token_inv in Hp as (_ & ? & _).
  - apply Join_nonempty; [done|]. eapply Forall_impl; [exact HL|]. by intros t [? _].
Qed.

Section UnsealFacts.
Context {V : Type} {VV : Vault V}.
Implicit Types (w : World V) (hash unseal : string) (prev : list string).

(** A call of [appendUnseal] that gets as far as the write. *)
Lemma appendUnseal_write hash unseal w resp v1 prev new v2 :
  vault_ReadFromCubbyhole ("unseal_wrapping_tokens/" +:+ hash) (backend w) = ((resp, None), v1) →
  readTokens resp = inl prev →
  vault_WrapData "60m" {[ "unseal_token" := VString unseal ]} v1 = ((new, None), v2) →
  appendUnseal hash unseal w =
    ((prev ++ [new],
      fst (vault_WriteToCubbyhole ("unseal_wrapping_tokens/" +:+ hash)
             (bundle (prev ++ [new])) v2)),
     mkWorld (lockMap w) (lockRoot w)
       (snd (vault_WriteToCubbyhole ("unseal_wrapping_tokens/" +:+ hash)
               (bundle (prev ++ [new])) v2))
       (calls w ++ [CallRead ("unseal_wrapping_tokens/" +:+ hash);
                    CallWrap "60m" {[ "unseal_token" := VString unseal ]};
                    CallWrite ("unseal_wrapping_tokens/" +:+ hash) (bundle (prev ++ [new]))])).
Proof.
  intros Hread Htokens Hwrap.
  unfold appendUnseal, bind, ReadFromCubbyhole, WrapData, WriteToCubbyhole, call, ret.
  rewrite Hread. cbn [backend]. rewrite Htokens. cbn [backend lockMap lockRoot calls].
  rewrite Hwrap. cbn [backend lockMap lockRoot calls].
  destruct (vault_WriteToCubbyhole _ _ _) as [err v3]. cbn [fst snd].
  by rewrite <- !(app_assoc (calls w)).
Qed.

(** C9, amended. The bundle holds the tokens [prev]; the vault wraps the
    new share as [new]; none of these tokens is empty or contains white
    space, ";", "[" or "]".  Then [appendUnseal] returns [prev ++ [new]]
    and writes a record from which the next call, given that record back,
    recovers [prev ++ [new]] and appends its own token.  For a token with
    a ";" in it, what is recovered is not what was written. *)
Theorem bundle_round_trip hash unseal unseal' w w' resp v1 prev new v2 v1' new' v2' :
  vault_ReadFromCubbyhole ("unseal_wrapping_tokens/" +:+ hash) (backend w) = ((resp, None), v1) →
  readTokens resp = inl prev →
  vault_WrapData "60m" {[ "unseal_token" := VString unseal ]} v1 = ((new, None), v2) →
  Forall sound_token (prev ++ [new]) →
  vault_ReadFromCubbyhole ("unseal_wrapping_tokens/" +:+ hash) (backend w')
    = ((Some (bundle (prev ++ [new])), None), v1') →
  vault_WrapData "60m" {[ "unseal_token" := VString unseal' ]} v1' = ((new', None), v2') →
  fst (fst (appendUnseal hash unseal w)) = prev ++ [new]
  ∧ last (calls (snd (appendUnseal hash unseal w)))
    = Some (CallWrite ("unseal_wrapping_tokens/" +:+ hash) (bundle (prev ++ [new])))
  ∧ readTokens (Some (bundle (prev ++ [new]))) = inl (prev ++ [new])
  ∧ fst (fst (appendUnseal hash unseal' w')) = (prev ++ [new]) ++ [new']
  ∧ ∃ t, plain_token t = false ∧ readTokens (Some (bundle [t])) ≠ inl [t].
Proof.
  intros Hread Htokens Hwrap Hsound Hread' Hwrap'.
  assert (Hback : readTokens (Some (bundle (prev ++ [new]))) = inl (prev ++ [new])).
  { apply readTokens_bundle; [|done]. by destruct prev. }
  rewrite (appendUnseal_write _ _ _ _ _ _ _ _ Hread Htokens Hwrap).
  rewrite (appendUnseal_write _ _ _ _ _ _ _ _ Hread' Hback Hwrap').
  cbn [fst snd calls].
  split; [done|]. split.
  { by rewrite last_app_cons. }
  split; [done|]. split; [done|].
  exists "a;b". split; [reflexivity|]. vm_compute. discriminate.
Qed.

End UnsealFacts.

(** The second and the third share of a bundle. *)
Lemma bundle_round_trip_witness :
  let w1 := snd (appendUnseal "h" "share-1" world0) in
  let w2 := snd (appendUnseal "h" "share-2" w1) in
  fst (fst (appendUnseal "h" "share-2" w1)) = ["wt-1"; "wt-2"]
  ∧ fst (fst (appendUnseal "h" "share-3" w2)) = ["wt-1"; "wt-2"; "wt-3"].
Proof.
  intros w1 w2.
  destruct (bundle_round_trip "h" "share-2" "share-3" w1 w2 (Some (bundle ["wt-1"]))
              (backend w1) ["wt-1"] "wt-2"
              (snd (mem_wrap "60m" ∅ (backend w1))) (backend w2) "wt-3"
              (snd (mem_wrap "60m" ∅ (backend w2))))
    as (H1 & _ & _ & H2 & _); [run | run | run | | run | run |].
  - repeat constructor; vm_compute; discriminate.
  - split; [exact H1 | exact H2].
Defined.

(** C9, as stated, fails: the empty string contains no white space, no
    ";", no "[" and no "]".  When the vault issues it as the first token of
    a bundle, [appendUnseal] returns the list with that token and writes the
    empty string under "wrapping_tokens"; the next call finds nothing it
    accepts and recovers no list at all. *)
Lemma empty_token_is_lost :
  let w1 := snd (appendUnseal "h" "share-1" world_blank) in
  plain_token "" = true
  ∧ fst (appendUnseal "h" "share-1" world_blank) = ([""], None)
  ∧ cubbyhole (backend w1) !! "unseal_wrapping_tokens/h"
    = Some {[ "wrapping_tokens" := VString "" ]}
  ∧ fst (appendUnseal "h" "share-2" w1)
    = ([], Some (errors_New "Could not find key 'wrapping_tokens' in cubbyhole"))
  ∧ readTokens (Some (bundle [""])) ≠ inl [""].
Proof.
  repeat split; try run. vm_compute. discriminate.
Qed.

(** * Further properties *)

(** ** The dispatcher on its other paths *)

Section DispatcherPaths.
Context {CT : CaseTable} {V A R : Type} {VV : Vault V} {RQ : Req.Request V A R} {SO : StructOps R}.
Implicit Types (w : World V) (auth : A) (hash unseal : string) (data raw : Data) (req : R).

(** A record that loads was read, selects the policy variant, decodes and
    has the key as its fingerprint. *)
Lemma load_inl_inv hash w req w' :
  load hash w = (inl req, w') →
  ∃ data,
    fst (vault_ReadFromCubbyhole ("requests/" +:+ hash) (backend w)) = (Some data, None)
    ∧ selects_policy data
    ∧ mapstructure_Decode data = inl req
    ∧ fingerprint req = Some hash.
Proof.
  unfold load, bind, ReadFromCubbyhole, call, ret, selects_policy.
  destruct (vault_ReadFromCubbyhole _ _) as [[resp err] v]. cbn [fst].
  destruct err; [done|]. destruct resp as [data|]; [|done].
  destruct (decide _) as [|Ht]; [done|]. destruct (decide _) as [Hp|]; [|done].
  destruct (mapstructure_Decode data) as [req'|] eqn:Hdec; [|done].
  destruct (hash_mismatch req' hash) eqn:Hm; [done|].
  intros [= -> <-]. exists data. apply hash_mismatch_false in Hm. done.
Qed.

(** The three operations on a record that does not load. *)
Lemma failed_load auth hash unseal w e :
  hash ∉ lockMap w →
  fst (load hash (claimed hash w)) = inr e →
  Get auth hash w = ((None, Some e), after_read ("requests/" +:+ hash) w)
  ∧ Approve auth hash unseal w = (Some e, after_read ("requests/" +:+ hash) w)
  ∧ Reject auth hash w = (Some e, after_read ("requests/" +:+ hash) w).
Proof.
  intros Hfree Hload. pose proof (load_world hash (claimed hash w)) as Hw.
  rewrite Get_free, Approve_free, Reject_free, !defer_Delete_result by done.
  unfold bind. destruct (load hash (claimed hash w)) as [r w1].
  cbn [fst snd] in *. subst. unfold ret. cbn [fst snd].
  by rewrite released_after_read.
Qed.

(** The outcome of [load] as a function of what the read returns. *)
Lemma load_result hash w :
  fst (load hash w) =
    match fst (vault_ReadFromCubbyhole ("requests/" +:+ hash) (backend w)) with
    | (_, Some e) => inr e
    | (None, None) => inr errNotFound
    | (Some data, None) =>
        let t := string_field data "Type" in
        if decide (t = "") then inr (errors_New "Invalid request type")
        else if decide (strings_ToLower t = "policy") then
          match mapstructure_Decode data with
          | inr e => inr e
          | inl req => if hash_mismatch req hash then inr errHashes else inl req
          end
        else inr (errors_New ("Invalid request type: " +:+ t))
    end.
Proof.
  unfold load, bind, ReadFromCubbyhole, call, ret.
  destruct (vault_ReadFromCubbyhole _ _) as [[resp err] v]. cbn [fst].
  destruct err; [by destruct resp|]. destruct resp as [data|]; [|done].
  cbn zeta. destruct (decide _); [done|]. destruct (decide _); [|done].
  destruct (mapstructure_Decode data); [|done]. by destruct (hash_mismatch _ _).
Qed.

(** X1. An identifier under which nothing is stored (the read returns no
    record and no error): [Get], [Approve] and [Reject] return "Change ID
    not found"; the read is the only call made and the lock is free
    again. *)
Theorem unknown_identifier_not_found auth hash unseal w :
  hash ∉ lockMap w →
  fst (vault_ReadFromCubbyhole ("requests/" +:+ hash) (backend w)) = (None, None) →
  Get auth hash w = ((None, Some errNotFound), after_read ("requests/" +:+ hash) w)
  ∧ Approve auth hash unseal w = (Some errNotFound, after_read ("requests/" +:+ hash) w)
  ∧ Reject auth hash w = (Some errNotFound, after_read ("requests/" +:+ hash) w).
Proof.
  intros Hfree Hread. apply failed_load; [done|].
  rewrite load_result. cbn [claimed set_lockMap backend]. by rewrite Hread.
Qed.

(** X2. A stored record whose "Type" does not select the policy variant:
    the three operations return "Invalid request type" when the field is
    missing, empty or not a string, and "Invalid request type: " followed by
    the stored value, in its own case, otherwise. *)
Theorem foreign_record_invalid_type auth hash unseal w data :
  hash ∉ lockMap w →
  fst (vault_ReadFromCubbyhole ("requests/" +:+ hash) (backend w)) = (Some data, None) →
  ¬ selects_policy data →
  let e := if decide (string_field data "Type" = "")
           then errors_New "Invalid request type"
           else errors_New ("Invalid request type: " +:+ string_field data "Type") in
  Get auth hash w = ((None, Some e), after_read ("requests/" +:+ hash) w)
  ∧ Approve auth hash unseal w = (Some e, after_read ("requests/" +:+ hash) w)
  ∧ Reject auth hash w = (Some e, after_read ("requests/" +:+ hash) w).
Proof.
  intros Hfree Hread Hnot e. apply failed_load; [done|].
  rewrite load_result. cbn [claimed set_lockMap backend]. rewrite Hread. cbn zeta.
  subst e. destruct (decide (string_field data "Type" = "")) as [|Ht]; [done|].
  destruct (decide _) as [Hp|]; [|done]. destruct Hnot. by split.
Qed.

(** X3. The errors of the collaborators come back as they are: that of the
    read, and that of [mapstructure.Decode] on a record of the policy
    variant. *)
Theorem collaborator_errors_passed_on auth hash unseal w e :
  hash ∉ lockMap w →
  ((∃ resp, fst (vault_ReadFromCubbyhole ("requests/" +:+ hash) (backend w)) = (resp, Some e))
   ∨ (∃ data, fst (vault_ReadFromCubbyhole ("requests/" +:+ hash) (backend w)) = (Some data, None)
              ∧ selects_policy data ∧ mapstructure_Decode data = inr e)) →
  Get auth hash w = ((None, Some e), after_read ("requests/" +:+ hash) w)
  ∧ Approve auth hash unseal w = (Some e, after_read ("requests/" +:+ hash) w)
  ∧ Reject auth hash w = (Some e, after_read ("requests/" +:+ hash) w).
Proof.
  intros Hfree Hcause. apply failed_load; [done|].
  rewrite load_result. cbn [claimed set_lockMap backend].
  destruct Hcause as [[resp Hread]|(data & Hread & [Ht Hp] & Hdec)]; rewrite Hread.
  - by destruct resp.
  - cbn zeta. rewrite decide_False, decide_True by done. by rewrite Hdec.
Qed.

(** X4. [Get] returns a request alone or an error alone.  A request that it
    returns was decoded from the record stored under the identifier, has
    the identifier as its fingerprint, and passed the validity check for
    the caller. *)
Theorem Get_returns_only_verified auth hash w :
  match fst (Get auth hash w) with
  | (Some req, None) =>
      fingerprint req = Some hash
      ∧ (hash ∉ lockMap w)
      ∧ (∃ data,
           fst (vault_ReadFromCubbyhole ("requests/" +:+ hash) (backend w)) = (Some data, None)
           ∧ selects_policy data
           ∧ mapstructure_Decode data = inl req)
      ∧ fst (Req.Verify req auth (after_read ("requests/" +:+ hash) (claimed hash w))) = None
  | (None, Some _) => True
  | _ => False
  end.
Proof.
  destruct (decide (hash ∈ lockMap w)) as [Hheld|Hfree].
  { unfold Get, bind. by rewrite LoadOrStore_held. }
  rewrite Get_free, defer_Delete_result by done. unfold bind. cbn [fst].
  pose proof (load_world hash (claimed hash w)) as Hw.
  destruct (load hash (claimed hash w)) as [[req|e] w1] eqn:Hload; [|unfold ret; cbn [fst]; done].
  cbn [snd] in Hw. subst w1.
  destruct (Req.Verify req auth _) as [[e|] w2] eqn:Hver; unfold ret; cbn [fst]; [done|].
  destruct (load_inl_inv _ _ _ _ Hload) as (data & Hread & Hp & Hdec & Hfp).
  split; [done|]. split; [done|]. split; [by exists data|].
  cbn [claimed set_lockMap after_read backend] in *. by rewrite Hver.
Qed.

(** X5. A stored request that is valid for the caller: [Get] returns it,
    and [Approve] returns what the variant's [Approve] returns for the
    identifier and the share, run in the world the validity check left;
    the lock is given back after the variant has run. *)
Theorem valid_request_served auth hash unseal w data req w2 :
  hash ∉ lockMap w →
  stored hash w data req →
  Req.Verify req auth (after_read ("requests/" +:+ hash) (claimed hash w)) = (None, w2) →
  Get auth hash w = ((Some req, None), released hash w2)
  ∧ Approve auth hash unseal w =
      (fst (Req.Approve req hash unseal w2), released hash (snd (Req.Approve req hash unseal w2))).
Proof.
  intros Hfree Hst Hver. pose proof (load_stored _ _ _ _ Hst) as Hload.
  rewrite Get_free, Approve_free, !defer_Delete_result by done.
  unfold bind. rewrite Hload, Hver. done.
Qed.

End DispatcherPaths.

(** ** What the dispatcher leaves behind *)

Section Frames.
Context {V : Type}.

Lemma keeps_ret {X} (x : X) : keeps_lockMap (ret (V := V) x).
Proof. by intros w. Qed.

Lemma keeps_bind {X Y} (m : M V X) (k : X → M V Y) :
  keeps_lockMap m → (∀ x, keeps_lockMap (k x)) → keeps_lockMap (bind m k).
Proof.
  intros Hm Hk w. unfold bind. specialize (Hm w). destruct (m w) as [x w1].
  cbn [snd] in Hm. by rewrite Hk.
Qed.

Lemma keeps_call {X} (c : VaultCall) (f : V → X * V) : keeps_lockMap (call c f).
Proof. intros w. unfold call. by destruct (f (backend w)). Qed.

Lemma keeps_env {X} (f : V → X * V) : keeps_lockMap (env f).
Proof. intros w. unfold env. by destruct (f (backend w)). Qed.

(** A body that keeps the lock map, run between claim and release. *)
Lemma claim_body_release {X} hash (body : M V X) (w : World V) :
  hash ∉ lockMap w → keeps_lockMap body →
  lockMap (snd (defer (lockMap_Delete hash) body (claimed hash w))) = lockMap w.
Proof.
  intros Hfree Hbody. rewrite defer_Delete_result. cbn [snd].
  unfold released, set_lockMap. cbn [lockMap]. rewrite Hbody.
  unfold claimed, set_lockMap. cbn [lockMap]. by apply claim_release.
Qed.

End Frames.

Section BusySet.
Context {CT : CaseTable} {V A R : Type} {VV : Vault V} {RQ : Req.Request V A R} {SO : StructOps R}.
Implicit Types (w : World V) (auth : A) (hash unseal : string) (data raw : Data) (req : R).

Lemma keeps_load hash : keeps_lockMap (load hash).
Proof. intros w. by rewrite load_world. Qed.

(** X6. When the variant keeps its hands off the lock map, each of the
    four operations leaves the busy-set exactly as it found it, whether it
    was turned away, failed or succeeded: no key is left behind and no key
    of another operation is dropped. *)
Theorem busy_set_restored auth raw hash unseal w :
  variant_keeps_lockMap (RQ := RQ) →
  lockMap (snd (Add auth raw w)) = lockMap w
  ∧ lockMap (snd (Get auth hash w)) = lockMap w
  ∧ lockMap (snd (Approve auth hash unseal w)) = lockMap w
  ∧ lockMap (snd (Reject auth hash w)) = lockMap w.
Proof.
  intros (HCreate & HVerify & HApprove & HReject).
  split; [|split; [|split]].
  - unfold Add. destruct (decide _) as [|_]; [done|]. destruct (decide _) as [_|]; [|done].
    unfold bind at 1. specialize (HCreate auth raw w).
    destruct (Req.Create auth raw w) as [[req [h [e|]]] w1]; cbn [snd] in HCreate; [done|].
    unfold bind at 1, lockMap_LoadOrStore.
    destruct (bool_decide (h ∈ lockMap w1)) eqn:Hh; [done|].
    apply bool_decide_eq_false in Hh. rewrite <- HCreate.
    apply claim_body_release; [done|].
    apply keeps_bind; [apply keeps_call|]. intros. apply keeps_ret.
  - destruct (decide (hash ∈ lockMap w)) as [Hheld|Hfree].
    { unfold Get, bind. by rewrite LoadOrStore_held. }
    rewrite Get_free by done. apply claim_body_release; [done|].
    apply keeps_bind; [apply keeps_load|]. intros [req|e0]; [|apply keeps_ret].
    apply keeps_bind; [apply HVerify|]. intros [e'|]; apply keeps_ret.
  - destruct (decide (hash ∈ lockMap w)) as [Hheld|Hfree].
    { unfold Approve, bind. by rewrite LoadOrStore_held. }
    rewrite Approve_free by done. apply claim_body_release; [done|].
    apply keeps_bind; [apply keeps_load|]. intros [req|e0]; [|apply keeps_ret].
    apply keeps_bind; [apply HVerify|]. intros [e'|]; [apply keeps_ret|apply HApprove].
  - destruct (decide (hash ∈ lockMap w)) as [Hheld|Hfree].
    { unfold Reject, bind. by rewrite LoadOrStore_held. }
    rewrite Reject_free by done. apply claim_body_release; [done|].
    apply keeps_bind; [apply keeps_load|]. intros [req|e]; [apply HReject|apply keeps_ret].
Qed.

(** X7. What [Add] does, for all fields.  When "Type" does not select the
    policy variant it returns no identifier and "Type field is empty" (the
    field is missing, empty or not a string) or "Unsupported request type",
    and the world is untouched: the variant is not asked.  Otherwise it
    calls the vault at most once after [Create]: either it returns no
    identifier and an error without a call of its own ([Create] failed, or
    the fingerprint is held), or it returns the fingerprint that [Create]
    computed, with the outcome of the one write of [structs.Map(req)] under
    "requests/" and that fingerprint. *)
Theorem Add_outcomes auth raw w :
  (¬ selects_policy raw
   ∧ Add auth raw w =
       (("", Some (if decide (string_field raw "Type" = "")
                   then errors_New "Type field is empty"
                   else errors_New "Unsupported request type")), w))
  ∨ (selects_policy raw
     ∧ let '(req, (hash, err)) := fst (Req.Create auth raw w) in
       let w1 := snd (Req.Create auth raw w) in
       (fst (fst (Add auth raw w)) = "" ∧ snd (fst (Add auth raw w)) ≠ None
        ∧ snd (Add auth raw w) = w1 ∧ (err ≠ None ∨ hash ∈ lockMap w1))
       ∨ (err = None ∧ (hash ∉ lockMap w1)
          ∧ fst (Add auth raw w) =
              (hash, fst (vault_WriteToCubbyhole ("requests/" +:+ hash) (structs_Map req)
                            (backend w1)))
          ∧ calls (snd (Add auth raw w))
            = calls w1 ++ [CallWrite ("requests/" +:+ hash) (structs_Map req)])).
Proof.
  destruct (decide (string_field raw "Type" = "")) as [Ht|Ht].
  { left. split; [by intros [? _]|]. unfold Add. by rewrite decide_True. }
  destruct (decide (strings_ToLower (string_field raw "Type") = "policy")) as [Hp|Hp].
  2: { left. split; [by intros [_ ?]|]. unfold Add. by rewrite !decide_False. }
  right. split; [done|]. rewrite (Add_policy auth raw w (conj Ht Hp)).
  destruct (Req.Create auth raw w) as [[req [hash [e|]]] w1]; cbn [fst snd].
  { left. repeat split; try done. by left. }
  destruct (bool_decide (hash ∈ lockMap w1)) eqn:Hh.
  { apply bool_decide_eq_true in Hh. left. repeat split; try done. by right. }
  apply bool_decide_eq_false in Hh. right. split; [done|]. split; [done|].
  rewrite defer_Delete_result. unfold bind, WriteToCubbyhole, call, ret.
  cbn [claimed set_lockMap backend lockMap lockRoot calls].
  by destruct (vault_WriteToCubbyhole _ _ _).
Qed.

End BusySet.

(** ** The dispatcher's other paths on the in-memory vault *)

Section UnsealFrame.
Context {V : Type} {VV : Vault V}.

Lemma keeps_appendUnseal hash unseal : keeps_lockMap (appendUnseal hash unseal).
Proof.
  unfold appendUnseal. apply keeps_bind; [apply keeps_call|]. intros [resp [e|]].
  { apply keeps_ret. }
  destruct (readTokens resp); [|apply keeps_ret].
  apply keeps_bind; [apply keeps_call|]. intros [token [e|]]; [apply keeps_ret|].
  apply keeps_bind; [apply keeps_call|]. intros. apply keeps_ret.
Qed.

End UnsealFrame.

Lemma keeps_on_backend {X} (f : MemVault → X * MemVault) : keeps_lockMap (on_backend f).
Proof. intros w. unfold on_backend. by destruct (f (backend w)). Qed.

Lemma policy_keeps_lockMap : variant_keeps_lockMap (RQ := policy_request).
Proof.
  split; [|split; [|split]]; intros; try apply keeps_on_backend.
  - cbn [Req.Approve policy_request]. unfold policy_Approve.
    destruct (decide _); [apply keeps_on_backend|].
    apply keeps_bind; [apply keeps_appendUnseal|]. intros. apply keeps_ret.
  - cbn [Req.Reject policy_request]. unfold policy_Reject.
    apply keeps_bind; [apply keeps_on_backend|].
    intros [e|]; [apply keeps_ret|apply keeps_on_backend].
Qed.

(** Nothing is stored under "feed". *)
Lemma unknown_identifier_not_found_witness :
  fst (Get "alice" "feed" world1) = (None, Some errNotFound)
  ∧ fst (Approve "alice" "feed" "" world1) = Some errNotFound
  ∧ fst (Reject "alice" "feed" world1) = Some errNotFound.
Proof.
  destruct (unknown_identifier_not_found "alice" "feed" "" world1) as (HG & HA & HR);
    [decided | run |].
  rewrite HG, HA, HR. repeat split.
Defined.

(** The stored record whose "Type" reads "plan". *)
Lemma foreign_record_invalid_type_witness :
  fst (Get "alice" hash0 world_retyped)
  = (None, Some (errors_New "Invalid request type: plan")).
Proof.
  destruct (foreign_record_invalid_type "alice" hash0 "" world_retyped
              (<["Type" := VString "plan"]> (policy_Map req0))) as (HG & _ & _);
    [decided | run | |].
  - intros [_ Hp]. vm_compute in Hp. discriminate Hp.
  - rewrite HG. reflexivity.
Defined.

(** The stored record whose "Required" holds a string. *)
Lemma collaborator_errors_passed_on_witness :
  fst (Approve "alice" hash0 "" world_garbled)
  = Some (errors_New "'Required' expected type 'int'").
Proof.
  destruct (collaborator_errors_passed_on "alice" hash0 "" world_garbled
              (errors_New "'Required' expected type 'int'")) as (_ & HA & _);
    [decided | |].
  - right. exists (<["Required" := VString "two"]> (policy_Map req0)).
    split; [run|]. split; [split; [vm_compute; discriminate | run] | run].
  - rewrite HA. reflexivity.
Defined.

(** alice fetches the request she added, and approves it once. *)
Lemma valid_request_served_witness :
  fst (Get "alice" hash0 world1) = (Some req0, None)
  ∧ fst (Approve "alice" hash0 "" world1) = None.
Proof.
  destruct (valid_request_served "alice" hash0 "" world1 (policy_Map req0) req0
              (after_read ("requests/" +:+ hash0) (claimed hash0 world1)))
    as (HG & HA); [decided | | run |].
  - split; [run|]. split; [split; [vm_compute; discriminate | run]|]. split; run.
  - rewrite HG, HA. split; reflexivity.
Defined.

(** The policy variant, with "dead" held by somebody else throughout. *)
Lemma busy_set_restored_witness :
  lockMap (snd (Add "alice" raw0 (claimed "dead" world0))) = {[ "dead" ]}
  ∧ lockMap (snd (Get "alice" hash0 (claimed "dead" world1))) = {[ "dead" ]}
  ∧ lockMap (snd (Approve "alice" hash0 "" (claimed "dead" world1))) = {[ "dead" ]}
  ∧ lockMap (snd (Reject "bob" hash0 (claimed "dead" world1))) = {[ "dead" ]}.
Proof.
  destruct (busy_set_restored "alice" raw0 hash0 "" (claimed "dead" world0)
              policy_keeps_lockMap) as (HAdd & _).
  destruct (busy_set_restored "alice" raw0 hash0 "" (claimed "dead" world1)
              policy_keeps_lockMap) as (_ & HG & HA & _).
  destruct (busy_set_restored "bob" raw0 hash0 "" (claimed "dead" world1)
              policy_keeps_lockMap) as (_ & _ & _ & HR).
  rewrite HAdd, HG, HA, HR. repeat split; run.
Defined.

(** The switch follows [strings.ToLower] beyond ASCII: a type spelled with
    U+0130 selects the policy variant.  [Add] hands the fields to [Create],
    which refuses a caller the vault does not know, and a stored record
    retyped that way is decoded and fails the hash check. *)
Lemma dotted_capital_selects_policy :
  strings_ToLower dotted_policy = "policy"
  ∧ selects_policy raw_dotted
  ∧ fst (Add "mallory" raw_dotted world0) = ("", Some errDenied)
  ∧ fst (Get "alice" hash0 world_dotted) = (None, Some errHashes)
  ∧ fst (Approve "alice" hash0 "" world_dotted) = Some errHashes
  ∧ fst (Reject "alice" hash0 world_dotted) = Some errHashes.
Proof.
  split; [run|]. split; [split; [vm_compute; discriminate | run]|]. repeat split; run.
Qed.

(** Fields of type "Token" are refused; alice's request makes one write. *)
Lemma Add_outcomes_witness :
  Add "alice" raw_other world0 = (("", Some (errors_New "Unsupported request type")), world0)
  ∧ fst (Add "alice" raw0 world0) = (hash0, None)
  ∧ calls (snd (Add "alice" raw0 world0))
    = [CallWrite ("requests/" +:+ hash0) (policy_Map req0)].
Proof.
  split.
  - destruct (Add_outcomes "alice" raw_other world0) as [[_ Hrun]|[[_ Hp] _]].
    + rewrite Hrun. reflexivity.
    + vm_compute in Hp. discriminate Hp.
  - pose proof (Add_outcomes "alice" raw0 world0) as H.
    change (fst (Req.Create "alice" raw0 world0)) with (req0, (hash0, @None error)) in H.
    change (snd (Req.Create "alice" raw0 world0)) with world0 in H.
    cbv zeta iota beta in H.
    destruct H as [[Hnot _]|[_ [(Hempty & _)|(_ & _ & Hres & Hcalls)]]].
    + destruct (Hnot raw0_selects_policy).
    + vm_compute in Hempty. discriminate Hempty.
    + rewrite Hres, Hcalls. split; reflexivity.
Defined.

(** ** Root-token reconstruction on every path *)

Lemma fmt_x_length buf : String.length (fmt_x buf) = (2 * length buf)%nat.
Proof. induction buf as [|b buf IH]; [done|]. cbn [fmt_x String.length length]. lia. Qed.

Lemma slice_length {X} (buf : list X) i j :
  (j ≤ length buf)%nat → length (slice buf i j) = (j - i)%nat.
Proof. intros Hj. unfold slice. rewrite length_take, length_drop. lia. Qed.

Lemma uuid_text_length buf : length buf = 16%nat → String.length (uuid_text buf) = 36%nat.
Proof.
  intros Hlen. unfold uuid_text.
  rewrite !append_length, !fmt_x_length, !slice_length by lia. reflexivity.
Qed.

Lemma xor_loop_length a b : length a = length b → length (xor_loop a b) = length a.
Proof.
  revert b. induction a as [|x a IH]; intros [|y b] Hlen; try done.
  cbn [xor_loop length]. f_equal. apply IH. by injection Hlen.
Qed.

Section RootPaths.
Context {V : Type} {VV : Vault V} {B64 : Base64}.
Implicit Types (w : World V) (status : RootStatus) (unsealKeys : list string).

(** What the decode step can return: the text of the XOR of two decodings
    of sixteen bytes, or nothing with one of two errors. *)
Lemma decodeRootToken_cases status otp :
  (∃ token pad,
     base64_DecodeString (EncodedRootToken status) = inl token
     ∧ base64_DecodeString otp = inl pad
     ∧ length token = 16%nat ∧ length pad = 16%nat
     ∧ decodeRootToken status otp = (uuid_text (xor_loop token pad), None))
  ∨ decodeRootToken status otp = ("", Some errQuorum)
  ∨ decodeRootToken status otp = ("", Some errDecode).
Proof.
  unfold decodeRootToken. destruct (decide _); [by right; left|].
  unfold xor_XORBase64, xor_XORBytes.
  destruct (base64_DecodeString (EncodedRootToken status)) as [token|]; [|by right; right].
  destruct (decide (token = [])); [by right; right|].
  destruct (base64_DecodeString otp) as [pad|]; [|by right; right].
  destruct (decide (pad = [])); [by right; right|].
  destruct (decide (length token ≠ length pad)) as [|Heq]; [by right; right|].
  apply dec_stable in Heq. unfold uuid_FormatUUID.
  destruct (decide _) as [|H16]; [by right; right|]. apply dec_stable in H16.
  rewrite xor_loop_length in H16 by done.
  left. exists token, pad. repeat split; try done. congruence.
Qed.

(** The loop keeps the package variables, and its log is one update for
    each share of a prefix of the keys, then the cancel if a share was
    refused. *)
Lemma submitShares_log unsealKeys : ∀ status w,
  ∃ n nonces,
    (n ≤ length unsealKeys)%nat ∧ length nonces = n
    ∧ lockMap (snd (submitShares unsealKeys status w)) = lockMap w
    ∧ lockRoot (snd (submitShares unsealKeys status w)) = lockRoot w
    ∧ match fst (submitShares unsealKeys status w) with
      | inl _ =>
          n = length unsealKeys
          ∧ calls (snd (submitShares unsealKeys status w))
            = calls w ++ zip_with CallRootUpdate unsealKeys nonces
      | inr _ =>
          (1 ≤ n)%nat
          ∧ calls (snd (submitShares unsealKeys status w))
            = calls w ++ zip_with CallRootUpdate (take n unsealKeys) nonces ++ [CallRootCancel]
      end.
Proof.
  induction unsealKeys as [|s rest IH]; intros status w.
  - exists 0%nat, []. cbn. by rewrite app_nil_r.
  - destruct (vault_GenerateRootUpdate s (Nonce status) (backend w)) as [[st [e|]] v] eqn:Hupd.
    + destruct (vault_GenerateRootCancel v) as [cerr v'] eqn:Hcancel.
      rewrite (submitShares_cons_fail _ _ _ _ _ _ _ _ _ Hupd Hcancel).
      exists 1%nat, [Nonce status]. cbn. repeat split; try done; lia.
    + rewrite (submitShares_cons_ok _ _ _ _ _ _ Hupd).
      destruct (IH st (mkWorld (lockMap w) (lockRoot w) v
                         (calls w ++ [CallRootUpdate s (Nonce status)])))
        as (n & nonces & Hn & Hlen & Hlock & Hroot & Hlog).
      exists (S n), (Nonce status :: nonces). cbn [length take zip_with].
      split; [lia|]. split; [lia|]. split; [done|]. split; [done|].
      destruct (fst (submitShares rest st _)); destruct Hlog as [Hn' Hcalls];
        (split; [lia|]); rewrite Hcalls; cbn [calls]; by rewrite <- app_assoc.
Qed.

(** An error of the loop is the message of a refused share. *)
Lemma submitShares_abort_message unsealKeys : ∀ status w,
  match fst (submitShares unsealKeys status w) with
  | inl _ => True
  | inr err => ∃ e cerr, err = errors_New (abortMessage e cerr)
  end.
Proof.
  induction unsealKeys as [|s rest IH]; intros status w; [done|].
  destruct (vault_GenerateRootUpdate s (Nonce status) (backend w)) as [[st [e|]] v] eqn:Hupd.
  - destruct (vault_GenerateRootCancel v) as [cerr v'] eqn:Hcancel.
    rewrite (submitShares_cons_fail _ _ _ _ _ _ _ _ _ Hupd Hcancel). cbn. by exists e, cerr.
  - rewrite (submitShares_cons_ok _ _ _ _ _ _ Hupd). apply IH.
Qed.

(** [generateRootToken] when the initiation fails. *)
Lemma generateRootToken_init_error unsealKeys w key v0 status0 e v1 :
  lockRoot w = false →
  securecookie_GenerateRandomKey 16 (backend w) = (key, v0) →
  vault_GenerateRootInit (base64_EncodeToString key) v0 = ((status0, Some e), v1) →
  generateRootToken unsealKeys w =
    Some (("", Some e),
          mkWorld (lockMap w) false v1 (calls w ++ [CallRootInit (base64_EncodeToString key)])).
Proof.
  intros Hfree Hkey Hinit. unfold generateRootToken. rewrite Hfree. f_equal.
  unfold defer, generateRootToken_locked, bind, env, GenerateRootInit, call, ret. simpl.
  rewrite Hkey. simpl. by rewrite Hinit.
Qed.

(** X9. With the mutex free, [generateRootToken] returns on every path,
    and when it returns the mutex is free again and the lock map of the
    dispatcher is as it was. *)
Theorem generateRootToken_releases unsealKeys w :
  lockRoot w = false →
  ∃ r w', generateRootToken unsealKeys w = Some (r, w')
          ∧ lockRoot w' = false ∧ lockMap w' = lockMap w.
Proof.
  intros Hfree.
  destruct (securecookie_GenerateRandomKey 16 (backend w)) as [key v0] eqn:Hkey.
  destruct (vault_GenerateRootInit (base64_EncodeToString key) v0)
    as [[status0 [e|]] v1] eqn:Hinit.
  { rewrite (generateRootToken_init_error _ _ _ _ _ _ _ Hfree Hkey Hinit). by eexists _, _. }
  rewrite (generateRootToken_started _ _ _ _ _ _ Hfree Hkey Hinit).
  unfold collectShares. destruct (decide _) as [Hnone|Hdone].
  - destruct (submitShares_log unsealKeys status0 (initiated w (base64_EncodeToString key) v1))
      as (n & nonces & _ & _ & Hlock & _).
    destruct (submitShares _ _ _) as [r w2]. by eexists _, _.
  - unfold ret. by eexists _, _.
Qed.

(** X10. The calls of [generateRootToken] to the vault are, in order: the
    initiation; one update for each share of a prefix of the keys, in the
    order of the keys; and then the cancel, exactly when a share was
    refused, in which case the function returns the message of that
    refusal. *)
Theorem generateRootToken_calls unsealKeys w r w' :
  generateRootToken unsealKeys w = Some (r, w') →
  ∃ otp n nonces (cancelled : bool),
    (n ≤ length unsealKeys)%nat ∧ length nonces = n
    ∧ calls w' = calls w ++ [CallRootInit otp]
                 ++ zip_with CallRootUpdate (take n unsealKeys) nonces
                 ++ (if cancelled then [CallRootCancel] else [])
    ∧ (cancelled = true →
       (1 ≤ n)%nat ∧ ∃ e cerr, r = ("", Some (errors_New (abortMessage e cerr)))).
Proof.
  destruct (lockRoot w) eqn:Hfree; [unfold generateRootToken; by rewrite Hfree|].
  destruct (securecookie_GenerateRandomKey 16 (backend w)) as [key v0] eqn:Hkey.
  intros Hrun. exists (base64_EncodeToString key). revert Hrun.
  destruct (vault_GenerateRootInit (base64_EncodeToString key) v0)
    as [[status0 [e|]] v1] eqn:Hinit.
  { rewrite (generateRootToken_init_error _ _ _ _ _ _ _ Hfree Hkey Hinit).
    intros [= <- <-]. exists 0%nat, [], false. cbn. repeat split; try done; lia. }
  rewrite (generateRootToken_started _ _ _ _ _ _ Hfree Hkey Hinit).
  unfold collectShares. destruct (decide _) as [Hnone|Hdone].
  - destruct (submitShares_log unsealKeys status0 (initiated w (base64_EncodeToString key) v1))
      as (n & nonces & Hn & Hlen & _ & _ & Hlog).
    pose proof (submitShares_abort_message unsealKeys status0
                  (initiated w (base64_EncodeToString key) v1)) as Hmsg.
    destruct (submitShares _ _ _) as [[status|err] w2]; cbn [fst snd] in *;
      intros [= <- <-]; destruct Hlog as [Hn' Hcalls]; cbn [set_lockRoot calls].
    + exists (length unsealKeys), nonces, false. rewrite firstn_all, app_nil_r.
      split; [lia|]. split; [congruence|]. split; [|done].
      rewrite Hcalls. cbn [initiated calls]. by rewrite <- app_assoc.
    + exists n, nonces, true. split; [done|]. split; [done|].
      split; [rewrite Hcalls; cbn [initiated calls]; by rewrite <- app_assoc|].
      intros _. split; [done|]. destruct Hmsg as (e' & cerr & ->). by exists e', cerr.
  - unfold ret. intros [= <- <-]. exists 0%nat, [], false.
    cbn. repeat split; try done; lia.
Qed.

(** X11. What [generateRootToken] returns is either a token of 36
    characters and no error, the token being the UUID text of the XOR of
    two decodings of sixteen bytes, that of an encoded token and that of the
    pad; or the empty string and an error.  It never returns a token
    together with an error. *)
Theorem generateRootToken_result unsealKeys w r w' :
  generateRootToken unsealKeys w = Some (r, w') →
  (∃ encoded token pad,
     base64_DecodeString encoded = inl token
     ∧ base64_DecodeString
         (base64_EncodeToString (fst (securecookie_GenerateRandomKey 16 (backend w)))) = inl pad
     ∧ length token = 16%nat ∧ length pad = 16%nat
     ∧ r = (uuid_text (xor_loop token pad), None)
     ∧ String.length (fst r) = 36%nat)
  ∨ (fst r = "" ∧ snd r ≠ None).
Proof.
  destruct (lockRoot w) eqn:Hfree; [unfold generateRootToken; by rewrite Hfree|].
  destruct (securecookie_GenerateRandomKey 16 (backend w)) as [key v0] eqn:Hkey.
  destruct (vault_GenerateRootInit (base64_EncodeToString key) v0)
    as [[status0 [e|]] v1] eqn:Hinit.
  { rewrite (generateRootToken_init_error _ _ _ _ _ _ _ Hfree Hkey Hinit).
    intros [= <- <-]. by right. }
  rewrite (generateRootToken_started _ _ _ _ _ _ Hfree Hkey Hinit).
  destruct (collectShares _ _ _) as [[status|err] w2]; intros [= <- <-]; [|by right].
  cbn [fst].
  destruct (decodeRootToken_cases status (base64_EncodeToString key))
    as [(token & pad & Ht & Hp & Hlt & Hlp & ->)|[-> | ->]]; [|by right|by right].
  left. exists (EncodedRootToken status), token, pad. repeat split; try done.
  cbn [fst]. apply uuid_text_length. rewrite xor_loop_length; congruence.
Qed.

(** X12. Shares are submitted only when the initiation succeeded without
    a token.  When it fails, its error is returned; when it hands over a
    token at once, that token is decoded; either way the initiation is the
    only call, whatever keys were supplied, and the mutex is free again. *)
Theorem no_share_without_need unsealKeys w key v0 status0 err v1 :
  lockRoot w = false →
  securecookie_GenerateRandomKey 16 (backend w) = (key, v0) →
  vault_GenerateRootInit (base64_EncodeToString key) v0 = ((status0, err), v1) →
  err ≠ None ∨ EncodedRootToken status0 ≠ "" →
  generateRootToken unsealKeys w =
    Some (match err with
          | Some e => ("", Some e)
          | None => decodeRootToken status0 (base64_EncodeToString key)
          end,
          mkWorld (lockMap w) false v1 (calls w ++ [CallRootInit (base64_EncodeToString key)])).
Proof.
  intros Hfree Hkey Hinit Hcause. destruct err as [e|].
  - by rewrite (generateRootToken_init_error _ _ _ _ _ _ _ Hfree Hkey Hinit).
  - destruct Hcause as [|Hdone]; [done|].
    rewrite (generateRootToken_started _ _ _ _ _ _ Hfree Hkey Hinit).
    unfold collectShares. by rewrite decide_False.
Qed.

End RootPaths.

(** Three keys for a threshold of two, the last one unknown to the vault. *)
Lemma generateRootToken_releases_witness :
  ∃ r w', generateRootToken ["key-a"; "bad"] world0 = Some (r, w')
          ∧ lockRoot w' = false ∧ lockMap w' = lockMap world0.
Proof. apply (generateRootToken_releases ["key-a"; "bad"] world0). reflexivity. Defined.

(** The log of a run with a refused second share. *)
Lemma generateRootToken_calls_witness :
  ∃ otp n nonces (cancelled : bool),
    (n ≤ 3)%nat ∧ length nonces = n
    ∧ calls (snd (default (("", None), world0)
                    (generateRootToken ["key-a"; "bad"; "key-b"] world0)))
      = [] ++ [CallRootInit otp]
        ++ zip_with CallRootUpdate (take n ["key-a"; "bad"; "key-b"]) nonces
        ++ (if cancelled then [CallRootCancel] else []).
Proof.
  destruct (generateRootToken ["key-a"; "bad"; "key-b"] world0) as [[r w']|] eqn:Hrun;
    [|vm_compute in Hrun; discriminate Hrun].
  destruct (generateRootToken_calls _ _ _ _ Hrun) as (otp & n & nonces & c & Hn & Hlen & Hc & _).
  exists otp, n, nonces, c. split; [exact Hn|]. split; [exact Hlen|]. exact Hc.
Defined.

(** Two valid keys. *)
Lemma generateRootToken_result_witness :
  String.length (fst (fst (default (("", None), world0)
                             (generateRootToken ["key-a"; "key-c"] world0)))) = 36%nat.
Proof.
  destruct (generateRootToken ["key-a"; "key-c"] world0) as [[r w']|] eqn:Hrun;
    [|vm_compute in Hrun; discriminate Hrun].
  destruct (generateRootToken_result _ _ _ _ Hrun)
    as [(enc & token & pad & _ & _ & _ & _ & _ & Hlen)|[Hempty _]].
  - exact Hlen.
  - vm_compute in Hrun. injection Hrun as <- _. vm_compute in Hempty. discriminate Hempty.
Defined.

(** A vault that completes the generation at once, and one that is sealed:
    the keys are not looked at. *)
Lemma no_share_without_need_witness :
  option_map (λ x, (fst x, calls (snd x)))
    (generateRootToken (VV := mem_vault_done) ["key-a"; "key-b"; "key-c"] world0)
  = Some (("deadbeef-0011-2233-4455-66778899aabb", None), [CallRootInit otp0])
  ∧ option_map (λ x, (fst x, calls (snd x)))
      (generateRootToken (VV := mem_vault_down) ["key-a"; "key-b"; "key-c"] world0)
    = Some (("", Some (errors_New "Vault is sealed")), [CallRootInit otp0]).
Proof.
  split.
  - erewrite (no_share_without_need (VV := mem_vault_done) _ world0); cycle 1;
      [reflexivity | reflexivity | reflexivity | right; vm_compute; discriminate | reflexivity].
  - erewrite (no_share_without_need (VV := mem_vault_down) _ world0); cycle 1;
      [reflexivity | reflexivity | reflexivity | left; discriminate | reflexivity].
Defined.

(** ** The share bundle on every path *)

Lemma Split_nonempty s sep : strings_Split s sep ≠ [].
Proof.
  destruct s as [|c s]; [done|]. cbn [strings_Split].
  destruct (decide _); [done|]. by destruct (strings_Split s sep).
Qed.

(** Splitting at a byte and joining with that byte gives the string back. *)
Lemma Join_Split s sep : strings_Join (strings_Split s sep) (String sep "") = s.
Proof.
  induction s as [|c s IH]; [done|]. cbn [strings_Split].
  pose proof (Split_nonempty s sep) as Hne.
  destruct (decide (c = sep)) as [->|Hc].
  - rewrite Join_cons_nonempty by done. by rewrite IH.
  - destruct (strings_Split s sep) as [|piece pieces]; [done|].
    destruct pieces as [|piece' pieces].
    + cbn [strings_Join] in *. by rewrite IH.
    + rewrite Join_cons in *. rewrite <- IH. reflexivity.
Qed.

Lemma Join_snoc L t sep :
  L ≠ [] → strings_Join (L ++ [t]) sep = strings_Join L sep +:+ sep +:+ t.
Proof.
  induction L as [|e L IH]; [done|]. intros _.
  destruct L as [|e' L']; [done|].
  rewrite <- !app_comm_cons, Join_cons. rewrite app_comm_cons, IH by done.
  by rewrite Join_cons, !append_assoc.
Qed.

(** No piece of a split contains the separator. *)
Lemma Split_pieces_free s sep piece :
  piece ∈ strings_Split s sep → in_cutset piece sep = false.
Proof.
  revert piece. induction s as [|c s IH]; intros piece.
  - cbn [strings_Split]. intros ->%list_elem_of_singleton. apply in_cutset_nil.
  - cbn [strings_Split]. destruct (decide (c = sep)) as [->|Hc].
    + intros [->|Hin]%elem_of_cons; [apply in_cutset_nil|by apply IH].
    + pose proof (Split_nonempty s sep) as Hne.
      destruct (strings_Split s sep) as [|p ps]; [done|].
      intros [->|Hin]%elem_of_cons.
      * rewrite in_cutset_cons, (IH p) by left.
        rewrite bool_decide_eq_false_2 by congruence. done.
      * apply IH. by right.
Qed.

Section UnsealPaths.
Context {V : Type} {VV : Vault V}.
Implicit Types (w : World V) (hash unseal : string) (prev : list string) (data : Data).

(** X13. [appendUnseal] wraps the share before it writes, and writes at
    most once: when it fails before the write it returns no list, and its
    only calls are the read, or the read and the wrap, so that the stored
    bundle is as it was; otherwise the list it returns, which is not empty,
    is the list whose bundle it wrote under "unseal_wrapping_tokens/" and
    the fingerprint. *)
Theorem appendUnseal_writes_last hash unseal w :
  let path := "unseal_wrapping_tokens/" +:+ hash in
  let payload : Data := {[ "unseal_token" := VString unseal ]} in
  let r := appendUnseal hash unseal w in
  (fst (fst r) = [] ∧ snd (fst r) ≠ None
   ∧ (calls (snd r) = calls w ++ [CallRead path]
      ∨ calls (snd r) = calls w ++ [CallRead path; CallWrap "60m" payload]))
  ∨ (fst (fst r) ≠ []
     ∧ calls (snd r)
       = calls w ++ [CallRead path; CallWrap "60m" payload;
                     CallWrite path (bundle (fst (fst r)))]).
Proof.
  intros path payload r. subst r path payload.
  destruct (vault_ReadFromCubbyhole ("unseal_wrapping_tokens/" +:+ hash) (backend w))
    as [[resp err] v1] eqn:Hread.
  destruct err as [e|].
  { left. unfold appendUnseal, bind, ReadFromCubbyhole, call, ret. rewrite Hread.
    cbn. repeat split; try done. by left. }
  destruct (readTokens resp) as [prev|e] eqn:Htokens.
  2: { left. unfold appendUnseal, bind, ReadFromCubbyhole, call, ret. rewrite Hread.
       cbn [fst snd]. rewrite Htokens. cbn. repeat split; try done. by left. }
  destruct (vault_WrapData "60m" {[ "unseal_token" := VString unseal ]} v1)
    as [[new err] v2] eqn:Hwrap.
  destruct err as [e|].
  { left. unfold appendUnseal, bind, ReadFromCubbyhole, WrapData, call, ret. rewrite Hread.
    cbn [fst snd backend]. rewrite Htokens. cbn [backend]. rewrite Hwrap.
    cbn. repeat split; try done. right. by rewrite <- app_assoc. }
  right. rewrite (appendUnseal_write _ _ _ _ _ _ _ _ Hread Htokens Hwrap). cbn [fst snd calls].
  split; [by destruct prev|done].
Qed.

(** X14. A record without a usable "wrapping_tokens" (the key is missing,
    holds the empty string, or holds something that is no string) stops
    [appendUnseal] after the read: it returns "Could not find key
    'wrapping_tokens' in cubbyhole", and the share is not wrapped. *)
Theorem appendUnseal_refuses_bad_record hash unseal w data v1 :
  vault_ReadFromCubbyhole ("unseal_wrapping_tokens/" +:+ hash) (backend w)
    = ((Some data, None), v1) →
  (data !! "wrapping_tokens" = None
   ∨ data !! "wrapping_tokens" = Some (VString "")
   ∨ ∃ x, data !! "wrapping_tokens" = Some x ∧ ∀ s, x ≠ VString s) →
  appendUnseal hash unseal w =
    (([], Some (errors_New "Could not find key 'wrapping_tokens' in cubbyhole")),
     mkWorld (lockMap w) (lockRoot w) v1
       (calls w ++ [CallRead ("unseal_wrapping_tokens/" +:+ hash)])).
Proof.
  intros Hread Hbad.
  assert (Hraw : string_field data "wrapping_tokens" = "").
  { unfold string_field. destruct Hbad as [-> | [-> | (x & -> & Hx)]]; try done.
    destruct x; try done. by destruct (Hx s). }
  unfold appendUnseal, bind, ReadFromCubbyhole, call, ret. rewrite Hread.
  unfold readTokens. rewrite Hraw. by rewrite decide_True.
Qed.

(** X15. For tokens that are not empty and contain no white space, ";",
    "[" or "]", appending is appending: on a record that holds [raw],
    [appendUnseal] writes [raw], a semicolon and the new token; without a
    record it writes the new token alone. *)
Theorem appendUnseal_appends hash unseal w resp v1 new v2 :
  vault_ReadFromCubbyhole ("unseal_wrapping_tokens/" +:+ hash) (backend w) = ((resp, None), v1) →
  vault_WrapData "60m" {[ "unseal_token" := VString unseal ]} v1 = ((new, None), v2) →
  sound_token new →
  match resp with
  | None => True
  | Some data =>
      string_field data "wrapping_tokens" ≠ ""
      ∧ Forall sound_token (strings_Split (string_field data "wrapping_tokens") ";")
  end →
  last (calls (snd (appendUnseal hash unseal w)))
  = Some (CallWrite ("unseal_wrapping_tokens/" +:+ hash)
            {[ "wrapping_tokens" :=
                 VString match resp with
                         | None => new
                         | Some data => string_field data "wrapping_tokens" +:+ ";" +:+ new
                         end ]}).
Proof.
  intros Hread Hwrap Hnew Hresp.
  assert (∃ prev, readTokens resp = inl prev ∧ Forall sound_token (prev ++ [new])
                  ∧ strings_Join (prev ++ [new]) ";"
                    = match resp with
                      | None => new
                      | Some data => string_field data "wrapping_tokens" +:+ ";" +:+ new
                      end) as (prev & Htokens & Hsound & Hjoin).
  { destruct resp as [data|].
    - destruct Hresp as [Hraw Hprev].
      exists (strings_Split (string_field data "wrapping_tokens") ";").
      unfold readTokens. rewrite decide_False by done.
      split; [done|]. split; [apply Forall_app; split; [done|by constructor]|].
      rewrite Join_snoc by apply Split_nonempty. by rewrite Join_Split.
    - exists []. split; [done|]. split; [by constructor|done]. }
  rewrite (appendUnseal_write _ _ _ _ _ _ _ _ Hread Htokens Hwrap). cbn [snd calls].
  rewrite last_app_cons. cbn [last]. unfold bundle.
  rewrite joinTokens_sound by (done || by destruct prev). by rewrite Hjoin.
Qed.

End UnsealPaths.

(** ** Unwrapping the bundle *)

Section UnwrapFacts.
Context {V : Type} {VU : VaultUnwrap V}.
Implicit Types (w : World V) (l : list string).

(** The shares found so far are handed on only by a run that succeeds. *)
Lemma unwrapLoop_acc l : ∀ acc w,
  unwrapLoop l acc w =
    match unwrapLoop l [] w with
    | (Some (unseals, None), w') => (Some (acc ++ unseals, None), w')
    | o => o
    end.
Proof.
  induction l as [|t rest IH]; intros acc w.
  - cbn [unwrapLoop]. unfold ret. by rewrite app_nil_r.
  - cbn [unwrapLoop]. unfold bind, UnwrapData, env.
    destruct (vault_UnwrapData t (backend w)) as [[data [e|]] v]; [done|].
    destruct (data !! "unseal_token") as [[s| | |]|]; try done.
    rewrite (IH (acc ++ [s])), (IH ([] ++ [s])).
    destruct (unwrapLoop rest [] _) as [[[us [e|]]|] w2]; try done.
    by rewrite <- app_assoc.
Qed.

(** One token, by what the vault returns for it. *)
Lemma unwrapLoop_cons t rest acc w :
  unwrapLoop (t :: rest) acc w =
    let '((data, err), v) := vault_UnwrapData t (backend w) in
    let w1 := mkWorld (lockMap w) (lockRoot w) v (calls w) in
    match err with
    | Some e => (Some ([], Some e), w1)
    | None =>
        match data !! "unseal_token" with
        | Some (VString unseal) => unwrapLoop rest (acc ++ [unseal]) w1
        | Some _ => (None, w1)
        | None => (Some ([], Some errTimedOut), w1)
        end
    end.
Proof.
  cbn [unwrapLoop]. unfold bind, UnwrapData, env, ret.
  destruct (vault_UnwrapData t (backend w)) as [[data [e|]] v]; [done|].
  by destruct (data !! "unseal_token") as [[s| | |]|].
Qed.

Lemma unwrapUnseals_length l : ∀ w unseals w',
  unwrapUnseals l w = (Some (unseals, None), w') → length unseals = length l.
Proof.
  unfold unwrapUnseals. induction l as [|t rest IH]; intros w unseals w'.
  - by intros [= <- <-].
  - rewrite unwrapLoop_cons.
    destruct (vault_UnwrapData t (backend w)) as [[data [e|]] v]; [done|].
    destruct (data !! "unseal_token") as [[s| | |]|]; try done.
    rewrite unwrapLoop_acc.
    destruct (unwrapLoop rest [] _) as [[[us [e|]]|] w2] eqn:Hrest; try done.
    intros [= <- <-]. cbn [app length]. f_equal. by eapply IH.
Qed.

(** X17. [unwrapUnseals] redeems the tokens from first to last: a run over
    [l1 ++ l2] whose part over [l1] succeeds goes on over [l2] in the world
    that part left and returns the shares of [l1] followed by those of
    [l2]; a run that succeeds returns one share for each token. *)
Theorem unwrapUnseals_in_order l1 l2 w unseals1 w1 :
  unwrapUnseals l1 w = (Some (unseals1, None), w1) →
  length unseals1 = length l1
  ∧ unwrapUnseals (l1 ++ l2) w =
      match unwrapUnseals l2 w1 with
      | (Some (unseals2, None), w2) => (Some (unseals1 ++ unseals2, None), w2)
      | o => o
      end.
Proof.
  intros Hrun. split; [by eapply unwrapUnseals_length|].
  revert w unseals1 w1 Hrun. unfold unwrapUnseals.
  induction l1 as [|t rest IH]; intros w unseals1 w1.
  - intros [= <- <-]. cbn [app]. by destruct (unwrapLoop l2 [] w) as [[[us [e|]]|] w2].
  - rewrite <- app_comm_cons, !unwrapLoop_cons.
    destruct (vault_UnwrapData t (backend w)) as [[data [e|]] v]; [done|].
    destruct (data !! "unseal_token") as [[s| | |]|]; try done.
    rewrite (unwrapLoop_acc rest), (unwrapLoop_acc (rest ++ l2)).
    destruct (unwrapLoop rest [] _) as [[[us [e|]]|] w2] eqn:Hrest; try done.
    intros [= <- <-]. rewrite (IH _ _ _ Hrest).
    destruct (unwrapLoop l2 [] w2) as [[[us2 [e|]]|] w3]; try done.
Qed.

(** X18. The first token that the vault does not redeem to a share ends
    the run: the error of the vault is returned, or "One of the wrapping
    tokens timed out. Progress reset." when the payload has no
    "unseal_token"; a payload whose "unseal_token" is no string makes the
    function panic.  The shares found before are dropped, and the tokens
    behind are not redeemed: the vault is left as that token left it. *)
Theorem unwrapUnseals_stops pre t post w unseals w1 data err v :
  unwrapUnseals pre w = (Some (unseals, None), w1) →
  vault_UnwrapData t (backend w1) = ((data, err), v) →
  (err = None → ∀ s, data !! "unseal_token" ≠ Some (VString s)) →
  unwrapUnseals (pre ++ t :: post) w =
    (match err, data !! "unseal_token" with
     | Some e, _ => Some ([], Some e)
     | None, None => Some ([], Some errTimedOut)
     | None, Some _ => None
     end,
     mkWorld (lockMap w1) (lockRoot w1) v (calls w1)).
Proof.
  intros Hpre Hunwrap Hbad. revert w unseals w1 Hpre Hunwrap. unfold unwrapUnseals.
  induction pre as [|p rest IH]; intros w unseals w1.
  - intros [= <- <-] Hunwrap. cbn [app]. rewrite unwrapLoop_cons, Hunwrap.
    destruct err as [e|]; [done|]. specialize (Hbad eq_refl).
    destruct (data !! "unseal_token") as [[s| | |]|]; try done. by destruct (Hbad s).
  - rewrite <- app_comm_cons, !unwrapLoop_cons.
    destruct (vault_UnwrapData p (backend w)) as [[d [e|]] v']; [done|].
    destruct (d !! "unseal_token") as [[s| | |]|]; try done.
    rewrite (unwrapLoop_acc rest), (unwrapLoop_acc (rest ++ t :: post)).
    destruct (unwrapLoop rest [] _) as [[[us [e|]]|] w2] eqn:Hrest; try done.
    intros [= <- <-] Hunwrap. rewrite (IH _ _ _ Hrest Hunwrap).
    destruct err as [e|]; [done|]. specialize (Hbad eq_refl).
    destruct (data !! "unseal_token") as [[s'| | |]|]; try done.
Qed.

End UnwrapFacts.

(** The two wrapped shares of the bundle, one after the other. *)
Lemma unwrapUnseals_in_order_witness :
  fst (unwrapUnseals ["wt-1"; "wt-2"] world_wrapped) = Some (["key-a"; "key-c"], None).
Proof.
  destruct (unwrapUnseals_in_order ["wt-1"] ["wt-2"] world_wrapped ["key-a"]
              (snd (unwrapUnseals ["wt-1"] world_wrapped))) as [_ Hrun]; [run|].
  change (["wt-1"] ++ ["wt-2"]) with ["wt-1"; "wt-2"] in Hrun. rewrite Hrun. run.
Defined.

(** A payload without a share between the two: the second share stays
    wrapped. *)
Lemma unwrapUnseals_stops_witness :
  fst (unwrapUnseals ["wt-1"; "wt-9"; "wt-2"] world_wrapped) = Some ([], Some errTimedOut)
  ∧ cubbyhole (backend (snd (unwrapUnseals ["wt-1"; "wt-9"; "wt-2"] world_wrapped)))
      !! "wrapped/wt-2"
    = Some {[ "unseal_token" := VString "key-c" ]}.
Proof.
  pose proof (unwrapUnseals_stops ["wt-1"] "wt-9" ["wt-2"] world_wrapped ["key-a"]
                (snd (unwrapUnseals ["wt-1"] world_wrapped)) ∅ None
                (snd (mem_unwrap "wt-9" (backend (snd (unwrapUnseals ["wt-1"] world_wrapped))))))
    as Hrun.
  change (["wt-1"] ++ ["wt-9"; "wt-2"]) with ["wt-1"; "wt-9"; "wt-2"] in Hrun.
  rewrite Hrun; [split; run | run | run | intros _ s; vm_compute; discriminate].
Defined.

(** A record whose "wrapping_tokens" holds a number. *)
Lemma appendUnseal_refuses_bad_record_witness :
  fst (appendUnseal "broken" "share" world_wrapped)
  = ([], Some (errors_New "Could not find key 'wrapping_tokens' in cubbyhole"))
  ∧ calls (snd (appendUnseal "broken" "share" world_wrapped))
    = [CallRead "unseal_wrapping_tokens/broken"].
Proof.
  rewrite (appendUnseal_refuses_bad_record "broken" "share" world_wrapped
             {[ "wrapping_tokens" := VInt 7 ]} (backend world_wrapped)).
  - split; reflexivity.
  - run.
  - right. right. exists (VInt 7). split; [run|]. intros s. discriminate.
Defined.

(** The third token joins the two of the bundle. *)
Lemma appendUnseal_appends_witness :
  last (calls (snd (appendUnseal "h" "share-3" world_wrapped)))
  = Some (CallWrite "unseal_wrapping_tokens/h" {[ "wrapping_tokens" := VString "wt-1;wt-2;wt-3" ]}).
Proof.
  rewrite (appendUnseal_appends "h" "share-3" world_wrapped
             (Some {[ "wrapping_tokens" := VString "wt-1;wt-2" ]}) (backend world_wrapped)
             "wt-3" (snd (mem_wrap "60m" ∅ (backend world_wrapped)))).
  - reflexivity.
  - run.
  - run.
  - split; [discriminate | run].
  - split; [vm_compute; discriminate|].
    change (strings_Split (string_field {[ "wrapping_tokens" := VString "wt-1;wt-2" ]}
                             "wrapping_tokens") ";") with ["wt-1"; "wt-2"].
    repeat constructor; vm_compute; discriminate.
Defined.

(** ** Tokens that do not survive the bundle *)

Lemma in_cutset_app s t c : in_cutset (s +:+ t) c = in_cutset s c || in_cutset t c.
Proof.
  induction s as [|x s IH]; [done|].
  rewrite append_cons, !in_cutset_cons, IH. by rewrite orb_assoc.
Qed.

Lemma in_cutset_ne x s c :
  N_of_ascii c ≠ N_of_ascii x → in_cutset (String x s) c = in_cutset s c.
Proof.
  intros Hne. rewrite in_cutset_cons, bool_decide_eq_false_2; [done|]. congruence.
Qed.

Lemma not_outside lo hi b : outside lo hi b = false → lo ≤ b.
Proof. unfold outside. intros [H _]%orb_false_iff. by apply N.ltb_ge in H. Qed.

(** The bytes of a rune that is no white space hold no white-space byte. *)
Lemma decode_bytes_no_space c0 t0 c :
  ascii_space c = true →
  unicode_IsSpace (fst (utf8_DecodeRuneInString (String c0 t0))) = false →
  in_cutset (string_take (snd (utf8_DecodeRuneInString (String c0 t0))) (String c0 t0)) c
  = false.
Proof.
  unfold ascii_space. intros [Hsp Hc]%andb_true_iff. apply N.ltb_lt in Hc.
  unfold utf8_DecodeRuneInString.
  destruct (N_of_ascii c0 <? 128) eqn:H0.
  { cbn [fst snd string_take]. intros Hr. rewrite in_cutset_ne; [apply in_cutset_nil|].
    intros Heq. congruence. }
  apply N.ltb_ge in H0.
  assert (Hne0 : N_of_ascii c ≠ N_of_ascii c0) by lia.
  destruct (utf8_first (N_of_ascii c0)) as [[sz [lo hi]]|] eqn:Hf.
  2: { cbn [fst snd string_take]. intros _. rewrite in_cutset_ne by done. apply in_cutset_nil. }
  apply utf8_first_range in Hf as [_ Hlo].
  repeat (match goal with
          | |- context [if ?b then _ else _] => destruct b eqn:?
          | |- context [match ?x with EmptyString => _ | String _ _ => _ end] => destruct x
          end; cbn [fst snd string_take]);
    intros _;
    repeat match goal with
           | H : outside _ _ _ = false |- _ => apply not_outside in H
           end;
    rewrite ?in_cutset_ne by lia; apply in_cutset_nil.
Qed.

Lemma runes_no_space c s :
  ascii_space c = true →
  Forall (λ u, unicode_IsSpace (fst u) = false → in_cutset (snd u) c = false) (runes s).
Proof.
  intros Hc. remember (String.length s) as n eqn:Hn. revert s Hn.
  induction n as [n IH] using lt_wf_ind. intros [|c0 t0] ->; [constructor|].
  rewrite runes_cons. constructor.
  - cbn [fst snd]. by apply decode_bytes_no_space.
  - pose proof (decode_width c0 t0) as Hw.
    apply (IH (String.length (string_drop (snd (utf8_DecodeRuneInString (String c0 t0)))
                                 (String c0 t0)))); [|done].
    rewrite string_drop_length. cbn [String.length]. lia.
Qed.

Lemma fields_loop_no_space c rs : ∀ cur field,
  Forall (λ u, unicode_IsSpace (fst u) = false → in_cutset (snd u) c = false) rs →
  in_cutset (default "" cur) c = false →
  field ∈ fields_loop unicode_IsSpace rs cur → in_cutset field c = false.
Proof.
  induction rs as [|[r bytes] rs IH]; intros cur field Hrs Hcur.
  - cbn [fields_loop]. destruct cur as [span|].
    + by intros ->%list_elem_of_singleton.
    + by intros ?%elem_of_nil.
  - apply Forall_cons in Hrs as [Hu Hrs]. cbn [fields_loop fst snd] in *.
    destruct (unicode_IsSpace r).
    + destruct cur as [span|].
      * intros [->|Hin]%elem_of_cons; [done|]. by apply (IH None).
      * by apply (IH None).
    + apply IH; [done|]. cbn [default from_option id].
      rewrite in_cutset_app, Hcur. by apply Hu.
Qed.

Lemma Join_no_byte c sep L :
  in_cutset sep c = false → Forall (λ t, in_cutset t c = false) L →
  in_cutset (strings_Join L sep) c = false.
Proof.
  intros Hsep. induction 1 as [|t L Ht HL IH]; [apply in_cutset_nil|].
  destruct L as [|t' L']; [done|].
  rewrite Join_cons, !in_cutset_app, Ht, Hsep. exact IH.
Qed.

Lemma trimLeft_no_byte c s cutset :
  in_cutset s c = false → in_cutset (trimLeft s cutset) c = false.
Proof.
  induction s as [|x s IH]; [done|]. intros Hs. cbn [trimLeft].
  destruct (in_cutset cutset x); [|done]. apply IH.
  rewrite in_cutset_cons in Hs. by apply orb_false_iff in Hs as [_ ?].
Qed.

Lemma trimRight_no_byte c s cutset :
  in_cutset s c = false → in_cutset (trimRight s cutset) c = false.
Proof.
  induction s as [|x s IH]; [done|]. rewrite in_cutset_cons.
  intros [Hx Hs]%orb_false_iff. cbn [trimRight]. specialize (IH Hs).
  destruct (trimRight s cutset) as [|y r].
  - destruct (in_cutset cutset x); [done|]. by rewrite in_cutset_cons, Hx.
  - by rewrite in_cutset_cons, Hx.
Qed.

Lemma Split_no_byte c s sep piece :
  in_cutset s c = false → piece ∈ strings_Split s sep → in_cutset piece c = false.
Proof.
  revert piece. induction s as [|x s IH]; intros piece Hs.
  - cbn [strings_Split]. by intros ->%list_elem_of_singleton.
  - rewrite in_cutset_cons in Hs. apply orb_false_iff in Hs as [Hx Hs].
    cbn [strings_Split]. destruct (decide (x = sep)) as [->|Hne].
    + intros [->|Hin]%elem_of_cons; [apply in_cutset_nil|by apply IH].
    + pose proof (Split_nonempty s sep) as Hnil.
      destruct (strings_Split s sep) as [|p ps]; [done|].
      intros [->|Hin]%elem_of_cons.
      * rewrite in_cutset_cons, Hx. apply IH; [done|by left].
      * apply IH; [done|by right].
Qed.

(** What is written for a bundle holds no white-space byte. *)
Lemma joinTokens_no_space c L : ascii_space c = true → in_cutset (joinTokens L) c = false.
Proof.
  intros Hc. unfold joinTokens, strings_Trim.
  apply trimLeft_no_byte, trimRight_no_byte, Join_no_byte.
  - rewrite in_cutset_cons, in_cutset_nil. rewrite bool_decide_eq_false_2; [done|].
    intros ->. vm_compute in Hc. discriminate Hc.
  - apply Forall_forall. intros field Hin.
    eapply (fields_loop_no_space c _ None); [by apply runes_no_space|apply in_cutset_nil|].
    exact Hin.
Qed.

(** X16. A list with a token that contains a semicolon or an ASCII
    white-space character is never read back from the bundle written for
    it: what [strings.Split] returns holds no semicolon, and what
    [strings.Fields] lets through holds no white space. *)
Theorem delimiter_token_never_recovered (L : list string) t c :
  t ∈ L → in_cutset t c = true → c = ";"%char ∨ ascii_space c = true →
  readTokens (Some (bundle L)) ≠ inl L.
Proof.
  intros Hin Ht Hc. unfold readTokens, bundle, string_field.
  rewrite lookup_singleton_eq. destruct (decide _); [done|].
  intros [= Heq]. rewrite <- Heq in Hin. destruct Hc as [->|Hc].
  - apply Split_pieces_free in Hin. congruence.
  - apply (Split_no_byte c) in Hin; [congruence|]. by apply joinTokens_no_space.
Qed.

(** The token "a;b" comes back as two, and so does "a b". *)
Lemma delimiter_token_never_recovered_witness :
  readTokens (Some (bundle ["a;b"; "c"])) ≠ inl ["a;b"; "c"]
  ∧ readTokens (Some (bundle ["c"; "a b"])) ≠ inl ["c"; "a b"].
Proof.
  split.
  - apply (delimiter_token_never_recovered ["a;b"; "c"] "a;b" ";"); [decided | run | by left].
  - apply (delimiter_token_never_recovered ["c"; "a b"] "a b" " "); [decided | run | right; run].
Defined.

(** ** The pad comes off again *)

Lemma lxor_byte a b : a ≤ 255 → b ≤ 255 → N.lxor a b ≤ 255.
Proof.
  intros Ha Hb. destruct (N.eq_dec (N.lxor a b) 0) as [->|Hne]; [lia|].
  assert (Hl : N.log2 (N.lxor a b) < 8).
  { eapply N.le_lt_trans; [apply N.log2_lxor|].
    apply N.max_lub_lt.
    - destruct (N.eq_dec a 0) as [->|?]; [done|]. apply N.log2_lt_pow2; lia.
    - destruct (N.eq_dec b 0) as [->|?]; [done|]. apply N.log2_lt_pow2; lia. }
  apply N.log2_lt_pow2 in Hl; lia.
Qed.

Lemma byte_xor_to_N x y :
  Byte.to_N (byte_xor x y) = N.lxor (Byte.to_N x) (Byte.to_N y).
Proof.
  unfold byte_xor.
  destruct (Byte.of_N (N.lxor (Byte.to_N x) (Byte.to_N y))) as [z|] eqn:Hz.
  - by apply Byte.to_of_N in Hz.
  - apply Byte.of_N_None_iff in Hz.
    pose proof (lxor_byte _ _ (Byte.to_N_bounded x) (Byte.to_N_bounded y)). lia.
Qed.

Lemma to_N_inj x y : Byte.to_N x = Byte.to_N y → x = y.
Proof.
  intros Heq. pose proof (Byte.of_to_N x) as Hx. rewrite Heq, Byte.of_to_N in Hx. congruence.
Qed.

Lemma byte_xor_involutive x y : byte_xor (byte_xor x y) y = x.
Proof.
  apply to_N_inj. rewrite !byte_xor_to_N.
  by rewrite N.lxor_assoc, N.lxor_nilpotent, N.lxor_0_r.
Qed.

Lemma xor_loop_involutive a : ∀ b, length a = length b → xor_loop (xor_loop a b) b = a.
Proof.
  induction a as [|x a IH]; intros [|y b] Hlen; try done.
  cbn [xor_loop]. rewrite byte_xor_involutive. f_equal. apply IH. by injection Hlen.
Qed.

Section RootRecovery.
Context {V : Type} {VV : Vault V} {B64 : Base64}.
Implicit Types (w : World V) (status : RootStatus) (unsealKeys : list string).

(** X19. When the backend hands over the root token under the pad (what
    it encodes decodes to the XOR of sixteen token bytes with the sixteen
    bytes of the pad), [generateRootToken] returns the UUID text of the root
    token itself: the second XOR with the pad undoes the first. *)
Theorem root_token_recovered unsealKeys w key v0 status0 v1 status w2 rootToken pad :
  lockRoot w = false →
  securecookie_GenerateRandomKey 16 (backend w) = (key, v0) →
  vault_GenerateRootInit (base64_EncodeToString key) v0 = ((status0, None), v1) →
  collectShares unsealKeys status0 (initiated w (base64_EncodeToString key) v1)
    = (inl status, w2) →
  EncodedRootToken status ≠ "" →
  base64_DecodeString (base64_EncodeToString key) = inl pad →
  base64_DecodeString (EncodedRootToken status) = inl (xor_loop rootToken pad) →
  length rootToken = 16%nat → length pad = 16%nat →
  generateRootToken unsealKeys w = Some ((uuid_text rootToken, None), set_lockRoot false w2).
Proof.
  intros Hfree Hkey Hinit Hrun Hsome Hpad Htoken Hlt Hlp.
  rewrite (generateRootToken_started _ _ _ _ _ _ Hfree Hkey Hinit), Hrun.
  f_equal. f_equal.
  assert (Hlen : length (xor_loop rootToken pad) = 16%nat).
  { rewrite xor_loop_length; congruence. }
  unfold decodeRootToken, xor_XORBase64, xor_XORBytes, uuid_FormatUUID.
  rewrite decide_False by done. rewrite Htoken, Hpad.
  rewrite decide_False by (intros Hnil; by rewrite Hnil in Hlen).
  rewrite decide_False by (intros ->; done).
  rewrite decide_False by (intros Hne; apply Hne; congruence).
  rewrite xor_loop_involutive by congruence.
  by rewrite decide_False by (intros Hne; by apply Hne).
Qed.

End RootRecovery.

(** Two valid keys on the in-memory vault: its root token comes back. *)
Lemma root_token_recovered_witness :
  option_map fst (generateRootToken ["key-a"; "key-c"] world0)
  = Some (uuid_text (root_token vault0), None).
Proof.
  erewrite (root_token_recovered ["key-a"; "key-c"] world0 _ _ _ _ _ _
              (root_token vault0) (entropy vault0)); cycle 1;
    [reflexivity | reflexivity | reflexivity | reflexivity | vm_compute; discriminate
    | reflexivity | reflexivity | reflexivity | reflexivity | reflexivity].
Defined.

(** ** The identifier spells the hash *)

Lemma hex_value_digit d : d < 16 → hex_value_of (hex_digit d) = d.
Proof.
  intros Hd. unfold hex_value_of, hex_digit.
  destruct (d <? 10) eqn:H10.
  - apply N.ltb_lt in H10. rewrite N_ascii_embedding by lia.
    rewrite (proj2 (N.ltb_lt _ _)) by lia. lia.
  - apply N.ltb_ge in H10. rewrite N_ascii_embedding by lia.
    rewrite (proj2 (N.ltb_ge _ _)) by lia. lia.
Qed.

Lemma hex_parse_acc s : ∀ acc,
  hex_parse s acc = acc * 16 ^ N.of_nat (String.length s) + hex_parse s 0.
Proof.
  induction s as [|c s IH]; intros acc.
  - cbn. lia.
  - cbn [hex_parse String.length]. rewrite (IH (acc * 16 + _)), (IH (0 * 16 + _)).
    rewrite Nat2N.inj_succ, N.pow_succ_r'. lia.
Qed.

Lemma hex_parse_digits fuel : ∀ n acc,
  n < 16 ^ N.of_nat fuel →
  hex_parse (hex_digits fuel n acc) 0
  = n * 16 ^ N.of_nat (String.length acc) + hex_parse acc 0.
Proof.
  induction fuel as [|fuel IH]; intros n acc Hn.
  - cbn in Hn. assert (n = 0) as -> by lia. cbn [hex_digits]. lia.
  - cbn [hex_digits]. rewrite Nat2N.inj_succ, N.pow_succ_r' in Hn.
    assert (Hd : n mod 16 < 16) by (apply N.mod_lt; lia).
    assert (Hacc : hex_parse (String (hex_digit (n mod 16)) acc) 0
                   = (n mod 16) * 16 ^ N.of_nat (String.length acc) + hex_parse acc 0).
    { cbn [hex_parse]. rewrite hex_parse_acc, hex_value_digit by done. lia. }
    pose proof (N.div_mod n 16 ltac:(lia)) as Hdm.
    destruct (n / 16 =? 0) eqn:Hq.
    + apply N.eqb_eq in Hq. rewrite Hacc. rewrite Hq in Hdm. nia.
    + rewrite IH by (apply N.Div0.div_lt_upper_bound; lia).
      rewrite Hacc. cbn [String.length]. rewrite Nat2N.inj_succ, N.pow_succ_r'. nia.
Qed.

Lemma hex_parse_FormatUint16 n : hex_parse (strconv_FormatUint16 n) 0 = n.
Proof.
  unfold strconv_FormatUint16. rewrite hex_parse_digits.
  - cbn. lia.
  - rewrite Nat2N.inj_succ, N2Nat.id.
    destruct (N.eq_dec n 0) as [->|Hn]; [done|].
    eapply N.lt_le_trans; [apply N.log2_spec; lia|].
    change 16 with (2 ^ 4). rewrite <- N.pow_mul_r. apply N.pow_le_mono_r; lia.
Qed.

Section Identifier.
Context {R : Type} {SO : StructOps R}.

(** X8. The hash check of [Get], [Approve] and [Reject] lets a record
    pass under the identifier that [strconv.FormatUint] writes for a number
    exactly when [hashstructure.Hash] gives that number without an error:
    the identifier determines the hash, and two requests share an
    identifier only if they share the hash. *)
Theorem identifier_determines_hash (req : R) (n : N) :
  hash_mismatch req (strconv_FormatUint16 n) = false
  ↔ hashstructure_Hash req = (n, None).
Proof.
  rewrite hash_mismatch_false. unfold fingerprint. split.
  - destruct (hashstructure_Hash req) as [h [e|]]; [done|].
    intros [= Heq]. apply (f_equal (λ s, hex_parse s 0)) in Heq.
    rewrite !hex_parse_FormatUint16 in Heq. by subst.
  - by intros ->.
Qed.

End Identifier.
